(** * Spatial optimization and coordinate conversion

    A shallow embedding of [spatial_optimization.py]: the two coordinate
    conversions, the symbolic objective and its derivatives, the two
    [solve] calls (unconstrained and Lagrange) and the extraction of the
    results back to degrees.

    Python floats are read as real numbers: [math.pi] is [PI], [math.cos]
    is [cos], and the four operations are exact.  Rounding is not part of
    the model.  What is kept of Python's arithmetic is that [/] raises
    [ZeroDivisionError] on a zero divisor.

    The real cosine vanishes at 90 degrees; [math.cos] on binary64 does
    not (it returns about 6.1e-17 there).  What is said about an origin
    at a pole is therefore stated over the two conversions with the
    cosine as a parameter, [deg_to_kms_with] and [kms_to_deg_with]. *)

From Stdlib Require Import Reals Lra Lia List Bool Permutation.
Import ListNotations.
Local Open Scope R_scope.

(** ** Python values that can fail *)

Module Py.

(** The built-in exceptions the script can run into.  [DomainError] is
    the error kind of the design document; no statement of the script
    raises it, it is listed so that properties about it can be written
    down. *)
Inductive exn : Set :=
| ZeroDivisionError
| TypeError
| IndexError
| KeyError
| NameError
| DomainError.

Inductive result (A : Type) : Type :=
| Ok (a : A)
| Raise (e : exn).
Arguments Ok {A} a.
Arguments Raise {A} e.

Definition bind {A B : Type} (c : result A) (k : A -> result B) : result B :=
  match c with
  | Ok a => k a
  | Raise e => Raise e
  end.

(** [a / b] on floats. *)
Definition div (a b : R) : result R :=
  if Req_dec_T b 0 then Raise ZeroDivisionError else Ok (a / b).

End Py.

Import Py.

Declare Scope py_scope.
Delimit Scope py_scope with py.
Notation "x <- c ;; k" := (bind c (fun x => k))
  (at level 61, c at next level, right associativity) : py_scope.
Infix "/!" := div (at level 40, left associativity) : py_scope.
Local Open Scope py_scope.

(** ** 1. Coordinate conversion utilities *)

Definition deg_to_kms (point_long point_lat origin_long origin_lat : R)
  : result (R * R) :=
  let earth_radius := 6371 in
  long <- (point_long * PI) /! 180 ;;
  reference_long <- (origin_long * PI) /! 180 ;;
  lat <- (point_lat * PI) /! 180 ;;
  reference_lat <- (origin_lat * PI) /! 180 ;;
  let long_difference_rad := long - reference_long in
  let lat_difference_rad := lat - reference_lat in
  let diff_long := earth_radius * long_difference_rad * cos reference_lat in
  let diff_lat := earth_radius * lat_difference_rad in
  Ok (diff_long, diff_lat).

Definition kms_to_deg (local_x local_y origin_long origin_lat : R)
  : result (R * R) :=
  let earth_radius := 6371 in
  reference_lat_rad <- (origin_lat * PI) /! 180 ;;
  long_difference_rad <- local_x /! (earth_radius * cos reference_lat_rad) ;;
  lat_difference_rad <- local_y /! earth_radius ;;
  diff_long_deg <- (long_difference_rad * 180) /! PI ;;
  diff_lat_deg <- (lat_difference_rad * 180) /! PI ;;
  let point_long := origin_long + diff_long_deg in
  let point_lat := origin_lat + diff_lat_deg in
  Ok (point_long, point_lat).

(** The same two functions over any implementation [math_cos] of the
    cosine they import. *)

Definition deg_to_kms_with (math_cos : R -> R)
    (point_long point_lat origin_long origin_lat : R) : result (R * R) :=
  let earth_radius := 6371 in
  long <- (point_long * PI) /! 180 ;;
  reference_long <- (origin_long * PI) /! 180 ;;
  lat <- (point_lat * PI) /! 180 ;;
  reference_lat <- (origin_lat * PI) /! 180 ;;
  let long_difference_rad := long - reference_long in
  let lat_difference_rad := lat - reference_lat in
  let diff_long := earth_radius * long_difference_rad * math_cos reference_lat in
  let diff_lat := earth_radius * lat_difference_rad in
  Ok (diff_long, diff_lat).

Definition kms_to_deg_with (math_cos : R -> R)
    (local_x local_y origin_long origin_lat : R) : result (R * R) :=
  let earth_radius := 6371 in
  reference_lat_rad <- (origin_lat * PI) /! 180 ;;
  long_difference_rad <- local_x /! (earth_radius * math_cos reference_lat_rad) ;;
  lat_difference_rad <- local_y /! earth_radius ;;
  diff_long_deg <- (long_difference_rad * 180) /! PI ;;
  diff_lat_deg <- (lat_difference_rad * 180) /! PI ;;
  let point_long := origin_long + diff_long_deg in
  let point_lat := origin_lat + diff_lat_deg in
  Ok (point_long, point_lat).

(** What binary64 [math.cos] returns at [90 * pi / 180]. *)
Definition cos_at_pole : R := 6.123233995736766e-17.

(** ** 3. Optimization model (SymPy) *)

(** The symbols of [symbols('x y L')]. *)
Module Sym.

Inductive symbol : Set := x | y | L.

Definition eqb (s t : symbol) : bool :=
  match s, t with
  | x, x | y, y | L, L => true
  | _, _ => false
  end.

End Sym.

(** SymPy expressions, as far as the script builds them: numbers,
    symbols, sums, differences, products and integer powers. *)
Inductive expr : Type :=
| Num (r : R)
| Var (s : Sym.symbol)
| Add (a b : expr)
| Sub (a b : expr)
| Mul (a b : expr)
| Pow (a : expr) (n : nat).

Definition env : Type := Sym.symbol -> R.

Fixpoint eval (rho : env) (e : expr) : R :=
  match e with
  | Num r => r
  | Var s => rho s
  | Add a b => eval rho a + eval rho b
  | Sub a b => eval rho a - eval rho b
  | Mul a b => eval rho a * eval rho b
  | Pow a n => eval rho a ^ n
  end.

(** [diff(e, s)] *)
Fixpoint diff (e : expr) (s : Sym.symbol) : expr :=
  match e with
  | Num _ => Num 0
  | Var t => if Sym.eqb t s then Num 1 else Num 0
  | Add a b => Add (diff a s) (diff b s)
  | Sub a b => Sub (diff a s) (diff b s)
  | Mul a b => Add (Mul (diff a s) b) (Mul a (diff b s))
  | Pow a n =>
      match n with
      | O => Num 0
      | S k => Mul (Mul (Num (INR n)) (Pow a k)) (diff a s)
      end
  end.

Fixpoint has_symbol (e : expr) : bool :=
  match e with
  | Num _ => false
  | Var _ => true
  | Add a b | Sub a b | Mul a b => has_symbol a || has_symbol b
  | Pow a _ => has_symbol a
  end.

(** What [solve] and the extraction step handle: a list of tuples, a
    dict keyed by symbols, or any other object. *)
Inductive pyvalue : Type :=
| PyList (l : list (list expr))
| PyDict (d : list (Sym.symbol * expr))
| PyOther.

Fixpoint lookup (d : list (Sym.symbol * expr)) (s : Sym.symbol) : option expr :=
  match d with
  | [] => None
  | (t, v) :: rest => if Sym.eqb t s then Some v else lookup rest s
  end.

Definition origin_env : env := fun _ => 0.

(** [float(e)]: a number converts, an expression with a free symbol is
    refused. *)
Definition float (e : expr) : result R :=
  if has_symbol e then Raise TypeError else Ok (eval origin_env e).

(** [v[s]] with a symbol as the key. *)
Definition getitem_symbol (v : pyvalue) (s : Sym.symbol) : result expr :=
  match v with
  | PyDict d =>
      match lookup d s with
      | Some e => Ok e
      | None => Raise KeyError
      end
  | PyList _ => Raise TypeError
  | PyOther => Raise TypeError
  end.

(** [l[i]] on a list or tuple. *)
Definition getitem_index {A : Type} (l : list A) (i : nat) : result A :=
  match nth_error l i with
  | Some a => Ok a
  | None => Raise IndexError
  end.

(** *** [solve] on a linear system

    [solve(eqs, syms)] with equations that are affine in the unknowns
    is SymPy's linear solver: Gauss-Jordan elimination on the augmented
    matrix.  No solution gives the empty list; otherwise the answer is
    a dict from the pivot unknowns to their values, written over the
    unknowns that stay free.  Every system the script hands over is
    affine (the objective is quadratic, the constraint is a line), so
    the coefficients are read off the derivatives at the origin. *)

Definition row : Type := list R.

Definition coeff (e : expr) (s : Sym.symbol) : R := eval origin_env (diff e s).

Definition augmented_row (syms : list Sym.symbol) (e : expr) : row :=
  map (coeff e) syms ++ [- eval origin_env e].

Definition entry (c : nat) (r : row) : R := nth c r 0.

Definition scale (k : R) (r : row) : row := map (Rmult k) r.

(** [r - k * p], entry by entry *)
Fixpoint eliminate (k : R) (p r : row) : row :=
  match r, p with
  | a :: r', b :: p' => (a - k * b) :: eliminate k p' r'
  | _, _ => []
  end.

(** First row with a non-zero entry in column [c], and the other rows. *)
Fixpoint find_pivot (c : nat) (rows : list row) : option (row * list row) :=
  match rows with
  | [] => None
  | r :: rest =>
      if Req_dec_T (entry c r) 0 then
        match find_pivot c rest with
        | Some (p, others) => Some (p, r :: others)
        | None => None
        end
      else Some (r, rest)
  end.

(** Column by column: [pivots] are the rows already reduced, each with
    its pivot column; [rows] are the rows still without a pivot. *)
Fixpoint gauss_jordan (cols : list nat) (pivots : list (nat * row))
    (rows : list row) : list (nat * row) * list row :=
  match cols with
  | [] => (pivots, rows)
  | c :: cs =>
      match find_pivot c rows with
      | None => gauss_jordan cs pivots rows
      | Some (p, others) =>
          let p1 := scale (/ entry c p) p in
          let clear r := eliminate (entry c r) p1 r in
          gauss_jordan cs
            (map (fun kr => (fst kr, clear (snd kr))) pivots ++ [(c, p1)])
            (map clear others)
      end
  end.

Definition nonzero (a : R) : bool := if Req_dec_T a 0 then false else true.

(** Value of the pivot unknown of a reduced row: the right-hand side
    minus the terms of the unknowns left free. *)
Definition row_value (syms : list Sym.symbol) (c : nat) (r : row) : expr :=
  fold_left
    (fun acc js =>
       if Nat.eqb (fst js) c then acc
       else if nonzero (entry (fst js) r)
            then Sub acc (Mul (Num (entry (fst js) r)) (Var (snd js)))
            else acc)
    (combine (seq 0 (length syms)) syms)
    (Num (entry (length syms) r)).

Definition solve_linear_system (syms : list Sym.symbol) (rows : list row)
  : option (list (Sym.symbol * expr)) :=
  let (pivots, rest) := gauss_jordan (seq 0 (length syms)) [] rows in
  if existsb (fun r => nonzero (entry (length syms) r)) rest then None
  else
    Some (map (fun kr => (nth (fst kr) syms Sym.x,
                          row_value syms (fst kr) (snd kr))) pivots).

Definition solve (eqs : list expr) (syms : list Sym.symbol) : pyvalue :=
  match solve_linear_system syms (map (augmented_row syms) eqs) with
  | None => PyList []
  | Some [] => PyList []
  | Some d => PyDict d
  end.

(** ** 2. Data setup *)

Definition ORIGIN_LONG : R := -58.37788955179407.
Definition ORIGIN_LAT : R := -34.595228892628455.

Definition di_global : R * R := (-58.38467378144673, -34.596156182566006).
Definition ob_global : R * R := (-58.38094967105265, -34.6034559421601).
Definition ga_global : R * R := (-58.37401050128944, -34.598868856938026).

Definition ho_global : R * R := (-58.38358725902865, -34.598181576896955).
Definition res_global : R * R := (-58.38026132000657, -34.597792990501425).

(** ** 3. The utility function and the two solves *)

Definition squared_distance (xi yi : R) : expr :=
  Add (Pow (Sub (Var Sym.x) (Num xi)) 2) (Pow (Sub (Var Sym.y) (Num yi)) 2).

(** Weights 1, 2 and 3 for the three amenities. *)
Definition U (x1 y1 x2 y2 x3 y3 : R) : expr :=
  Add (Add (Mul (Num 1) (squared_distance x1 y1))
           (Mul (Num 2) (squared_distance x2 y2)))
      (Mul (Num 3) (squared_distance x3 y3)).

(** The same sum over any list of weighted reference points. *)
Record weighted_point : Type := WeightedPoint {
  weight : R;
  px : R;
  py : R
}.

Definition term (p : weighted_point) : expr :=
  Mul (Num (weight p)) (squared_distance (px p) (py p)).

Definition objective (pts : list weighted_point) : expr :=
  match pts with
  | [] => Num 0
  | p :: ps => fold_left (fun acc q => Add acc (term q)) ps (term p)
  end.

(** Part A: gradient = 0 *)
Definition unconstrained_sol (U : expr) : pyvalue :=
  let eq_1 := diff U Sym.x in
  let eq_2 := diff U Sym.y in
  solve [eq_1; eq_2] [Sym.x; Sym.y].

(** Part B, from the line [y = m_slope * x + b_intercept] on. *)
Definition lagrange_sol (U : expr) (m_slope b_intercept : R) : pyvalue :=
  let eq_1 := diff U Sym.x in
  let eq_2 := diff U Sym.y in
  let g := Sub (Sub (Var Sym.y) (Mul (Num m_slope) (Var Sym.x)))
               (Num b_intercept) in
  let grad_g1 := diff g Sym.x in
  let grad_g2 := diff g Sym.y in
  let lagrange_eq1 := Sub eq_1 (Mul (Var Sym.L) grad_g1) in
  let lagrange_eq2 := Sub eq_2 (Mul (Var Sym.L) grad_g2) in
  let constraint_eq := g in
  solve [lagrange_eq1; lagrange_eq2; constraint_eq] [Sym.x; Sym.y; Sym.L].

(** Part B, from the two street endpoints on. *)
Definition constrained_sol (U : expr) (ho_x ho_y res_x res_y : R)
  : result pyvalue :=
  m_slope <- (res_y - ho_y) /! (res_x - ho_x) ;;
  let b_intercept := ho_y - m_slope * ho_x in
  Ok (lagrange_sol U m_slope b_intercept).

(** ** 4. Results conversion *)

Definition extract_unconstrained (unconstrained_sol : pyvalue)
  : result (R * R) :=
  ex <- getitem_symbol unconstrained_sol Sym.x ;;
  unc_x_local <- float ex ;;
  ey <- getitem_symbol unconstrained_sol Sym.y ;;
  unc_y_local <- float ey ;;
  Ok (unc_x_local, unc_y_local).

(** The [if]/[elif] without [else]: [None] stands for the two names
    [cons_x_local] and [cons_y_local] left unbound. *)
Definition extract_constrained (constrained_sol : pyvalue)
  : result (option (R * R)) :=
  match constrained_sol with
  | PyList l =>
      t0 <- getitem_index l 0 ;;
      e0 <- getitem_index t0 0 ;;
      cons_x_local <- float e0 ;;
      t1 <- getitem_index l 0 ;;
      e1 <- getitem_index t1 1 ;;
      cons_y_local <- float e1 ;;
      Ok (Some (cons_x_local, cons_y_local))
  | PyDict d =>
      ex <- getitem_symbol (PyDict d) Sym.x ;;
      cons_x_local <- float ex ;;
      ey <- getitem_symbol (PyDict d) Sym.y ;;
      cons_y_local <- float ey ;;
      Ok (Some (cons_x_local, cons_y_local))
  | PyOther => Ok None
  end.

(** Reading a name: unbound names raise [NameError]. *)
Definition read_names (bound : option (R * R)) : result (R * R) :=
  match bound with
  | Some v => Ok v
  | None => Raise NameError
  end.

Definition results_conversion (unconstrained_sol constrained_sol : pyvalue)
    (origin_long origin_lat : R) : result ((R * R) * (R * R)) :=
  unc_local <- extract_unconstrained unconstrained_sol ;;
  cons_names <- extract_constrained constrained_sol ;;
  unc <- kms_to_deg (fst unc_local) (snd unc_local) origin_long origin_lat ;;
  cons_local <- read_names cons_names ;;
  cons <- kms_to_deg (fst cons_local) (snd cons_local) origin_long origin_lat ;;
  Ok (unc, cons).

(** The whole script, over its seven constants. *)
Definition script (origin_long origin_lat : R)
    (di ob ga ho res : R * R) : result ((R * R) * (R * R)) :=
  p1 <- deg_to_kms (fst di) (snd di) origin_long origin_lat ;;
  p2 <- deg_to_kms (fst ob) (snd ob) origin_long origin_lat ;;
  p3 <- deg_to_kms (fst ga) (snd ga) origin_long origin_lat ;;
  pho <- deg_to_kms (fst ho) (snd ho) origin_long origin_lat ;;
  pres <- deg_to_kms (fst res) (snd res) origin_long origin_lat ;;
  let u := U (fst p1) (snd p1) (fst p2) (snd p2) (fst p3) (snd p3) in
  let unconstrained := unconstrained_sol u in
  constrained <- constrained_sol u (fst pho) (snd pho) (fst pres) (snd pres) ;;
  results_conversion unconstrained constrained origin_long origin_lat.

Definition main : result ((R * R) * (R * R)) :=
  script ORIGIN_LONG ORIGIN_LAT di_global ob_global ga_global ho_global res_global.

(** ** Sums over the reference points *)

Definition total_weight (pts : list weighted_point) : R :=
  fold_right (fun p s => weight p + s) 0 pts.

Definition weighted_sum_x (pts : list weighted_point) : R :=
  fold_right (fun p s => weight p * px p + s) 0 pts.

Definition weighted_sum_y (pts : list weighted_point) : R :=
  fold_right (fun p s => weight p * py p + s) 0 pts.

(** The closed form of the design document:
    [x* = sum (w_i * x_i) / sum w_i], [y* = sum (w_i * y_i) / sum w_i]. *)
Definition weighted_centroid (pts : list weighted_point) : R * R :=
  (weighted_sum_x pts / total_weight pts, weighted_sum_y pts / total_weight pts).

Definition weighted_sum_sq (pts : list weighted_point) : R :=
  fold_right (fun p s => weight p * (px p * px p + py p * py p) + s) 0 pts.

(** Value of an expression in [x] and [y] at a point of the plane. *)
Definition point_env (q : R * R) : env :=
  fun s =>
    match s with
    | Sym.x => fst q
    | Sym.y => snd q
    | Sym.L => 0
    end.

Definition value (pts : list weighted_point) (q : R * R) : R :=
  eval (point_env q) (objective pts).

(** Foot of the perpendicular from [p] to the line [y = m * x + b]. *)
Definition orthogonal_projection (p : R * R) (m b : R) : R * R :=
  let t := (fst p + m * (snd p - b)) / (1 + m * m) in
  (t, m * t + b).

(** [rho] with the symbol [s] set to [t]. *)
Definition update (rho : env) (s : Sym.symbol) (t : R) : env :=
  fun s' => if Sym.eqb s' s then t else rho s'.

(** The three equations of part B, in the order they are handed to
    [solve]. *)
Definition lagrange_system (U : expr) (m_slope b_intercept : R) : list expr :=
  let eq_1 := diff U Sym.x in
  let eq_2 := diff U Sym.y in
  let g := Sub (Sub (Var Sym.y) (Mul (Num m_slope) (Var Sym.x)))
               (Num b_intercept) in
  let grad_g1 := diff g Sym.x in
  let grad_g2 := diff g Sym.y in
  let lagrange_eq1 := Sub eq_1 (Mul (Var Sym.L) grad_g1) in
  let lagrange_eq2 := Sub eq_2 (Mul (Var Sym.L) grad_g2) in
  let constraint_eq := g in
  [lagrange_eq1; lagrange_eq2; constraint_eq].

(** The same reference point with its weight multiplied by [k]. *)
Definition scale_weight (k : R) (p : weighted_point) : weighted_point :=
  WeightedPoint (k * weight p) (px p) (py p).

(** ** Facts about the arithmetic *)

Lemma div_nonzero (a b : R) : b <> 0 -> a /! b = Ok (a / b).
Proof.
  intros Hb. unfold div. destruct (Req_dec_T b 0) as [E | _]; [contradiction | reflexivity].
Qed.

Lemma div_zero (a b : R) : b = 0 -> a /! b = Raise ZeroDivisionError.
Proof.
  intros Hb. unfold div. destruct (Req_dec_T b 0) as [_ | N]; [reflexivity | contradiction].
Qed.

Lemma div_180 (a : R) : a /! 180 = Ok (a / 180).
Proof. apply div_nonzero. lra. Qed.

Lemma div_PI (a : R) : a /! PI = Ok (a / PI).
Proof. apply div_nonzero. exact PI_neq0. Qed.

Lemma div_earth_radius (a : R) : a /! 6371 = Ok (a / 6371).
Proof. apply div_nonzero. lra. Qed.

(** The two conversions with the monad unfolded. *)

Lemma deg_to_kms_eq (point_long point_lat origin_long origin_lat : R) :
  deg_to_kms point_long point_lat origin_long origin_lat =
  Ok (6371 * (point_long * PI / 180 - origin_long * PI / 180)
        * cos (origin_lat * PI / 180),
      6371 * (point_lat * PI / 180 - origin_lat * PI / 180)).
Proof.
  unfold deg_to_kms. rewrite !div_180. reflexivity.
Qed.

Lemma kms_to_deg_eq (local_x local_y origin_long origin_lat : R) :
  cos (origin_lat * PI / 180) <> 0 ->
  kms_to_deg local_x local_y origin_long origin_lat =
  Ok (origin_long + local_x / (6371 * cos (origin_lat * PI / 180)) * 180 / PI,
      origin_lat + local_y / 6371 * 180 / PI).
Proof.
  intros Hc. unfold kms_to_deg. rewrite div_180. cbn [bind].
  rewrite div_nonzero by (apply Rmult_integral_contrapositive_currified; [lra | exact Hc]).
  cbn [bind]. rewrite div_earth_radius. cbn [bind]. rewrite !div_PI. reflexivity.
Qed.

Lemma deg_to_kms_with_cos : deg_to_kms_with cos = deg_to_kms.
Proof. reflexivity. Qed.

Lemma kms_to_deg_with_cos : kms_to_deg_with cos = kms_to_deg.
Proof. reflexivity. Qed.

Lemma deg_to_kms_with_eq (math_cos : R -> R)
    (point_long point_lat origin_long origin_lat : R) :
  deg_to_kms_with math_cos point_long point_lat origin_long origin_lat =
  Ok (6371 * (point_long * PI / 180 - origin_long * PI / 180)
        * math_cos (origin_lat * PI / 180),
      6371 * (point_lat * PI / 180 - origin_lat * PI / 180)).
Proof.
  unfold deg_to_kms_with. rewrite !div_180. reflexivity.
Qed.

Lemma kms_to_deg_with_eq (math_cos : R -> R)
    (local_x local_y origin_long origin_lat : R) :
  math_cos (origin_lat * PI / 180) <> 0 ->
  kms_to_deg_with math_cos local_x local_y origin_long origin_lat =
  Ok (origin_long
      + local_x / (6371 * math_cos (origin_lat * PI / 180)) * 180 / PI,
      origin_lat + local_y / 6371 * 180 / PI).
Proof.
  intros Hc. unfold kms_to_deg_with. rewrite div_180. cbn [bind].
  rewrite div_nonzero by (apply Rmult_integral_contrapositive_currified; [lra | exact Hc]).
  cbn [bind]. rewrite div_earth_radius. cbn [bind]. rewrite !div_PI. reflexivity.
Qed.

Lemma kms_to_deg_with_zero (math_cos : R -> R)
    (local_x local_y origin_long origin_lat : R) :
  math_cos (origin_lat * PI / 180) = 0 ->
  kms_to_deg_with math_cos local_x local_y origin_long origin_lat =
  Raise ZeroDivisionError.
Proof.
  intros Hc. unfold kms_to_deg_with. rewrite div_180. cbn [bind].
  rewrite div_zero by (rewrite Hc; lra). reflexivity.
Qed.

(** ** Derivatives of the objective *)

Section Folds.

Variable f : weighted_point -> expr.

Lemma diff_fold_add (ps : list weighted_point) (acc : expr) (s : Sym.symbol) :
  diff (fold_left (fun a q => Add a (f q)) ps acc) s =
  fold_left (fun a q => Add a (diff (f q) s)) ps (diff acc s).
Proof.
  revert acc. induction ps as [| q ps IH]; intros acc; cbn; [reflexivity |].
  rewrite IH. reflexivity.
Qed.

Lemma eval_fold_add (rho : env) (ps : list weighted_point) (acc : expr) :
  eval rho (fold_left (fun a q => Add a (f q)) ps acc) =
  eval rho acc + fold_right (fun q s => eval rho (f q) + s) 0 ps.
Proof.
  revert acc. induction ps as [| q ps IH]; intros acc; cbn; [lra |].
  rewrite IH. cbn. lra.
Qed.

End Folds.

Lemma eval_objective (rho : env) (pts : list weighted_point) :
  eval rho (objective pts) =
  fold_right (fun q s => eval rho (term q) + s) 0 pts.
Proof.
  destruct pts as [| p ps]; cbn [objective]; [reflexivity |].
  rewrite eval_fold_add. reflexivity.
Qed.

Lemma eval_diff_objective (rho : env) (pts : list weighted_point) (s : Sym.symbol) :
  eval rho (diff (objective pts) s) =
  fold_right (fun q acc => eval rho (diff (term q) s) + acc) 0 pts.
Proof.
  destruct pts as [| p ps]; cbn [objective]; [reflexivity |].
  rewrite diff_fold_add, eval_fold_add. reflexivity.
Qed.

Lemma eval_diff2_objective (rho : env) (pts : list weighted_point)
    (s t : Sym.symbol) :
  eval rho (diff (diff (objective pts) s) t) =
  fold_right (fun q acc => eval rho (diff (diff (term q) s) t) + acc) 0 pts.
Proof.
  destruct pts as [| p ps]; cbn [objective]; [reflexivity |].
  rewrite diff_fold_add.
  rewrite (diff_fold_add (fun q => diff (term q) s)), eval_fold_add.
  reflexivity.
Qed.

Lemma eval_term (rho : env) (p : weighted_point) :
  eval rho (term p) =
  weight p * ((rho Sym.x - px p) ^ 2 + (rho Sym.y - py p) ^ 2).
Proof. reflexivity. Qed.

Lemma eval_diff_term (rho : env) (p : weighted_point) (s : Sym.symbol) :
  eval rho (diff (term p) s) =
  match s with
  | Sym.x => 2 * weight p * (rho Sym.x - px p)
  | Sym.y => 2 * weight p * (rho Sym.y - py p)
  | Sym.L => 0
  end.
Proof. destruct s; cbn; ring. Qed.

Lemma eval_diff2_term (rho : env) (p : weighted_point) (s t : Sym.symbol) :
  eval rho (diff (diff (term p) s) t) =
  match s, t with
  | Sym.x, Sym.x | Sym.y, Sym.y => 2 * weight p
  | _, _ => 0
  end.
Proof. destruct s, t; cbn; ring. Qed.

Lemma sums_cons (p : weighted_point) (ps : list weighted_point) :
  total_weight (p :: ps) = weight p + total_weight ps /\
  weighted_sum_x (p :: ps) = weight p * px p + weighted_sum_x ps /\
  weighted_sum_y (p :: ps) = weight p * py p + weighted_sum_y ps.
Proof. repeat split; reflexivity. Qed.

Lemma gradient_objective (rho : env) (pts : list weighted_point) (s : Sym.symbol) :
  eval rho (diff (objective pts) s) =
  match s with
  | Sym.x => 2 * (total_weight pts * rho Sym.x - weighted_sum_x pts)
  | Sym.y => 2 * (total_weight pts * rho Sym.y - weighted_sum_y pts)
  | Sym.L => 0
  end.
Proof.
  rewrite eval_diff_objective.
  induction pts as [| p ps IH].
  - destruct s; cbn; ring.
  - destruct (sums_cons p ps) as (Hw & Hx & Hy). rewrite Hw, Hx, Hy.
    cbn [fold_right]. rewrite IH, eval_diff_term. destruct s; ring.
Qed.

Lemma hessian_objective (rho : env) (pts : list weighted_point)
    (s t : Sym.symbol) :
  eval rho (diff (diff (objective pts) s) t) =
  match s, t with
  | Sym.x, Sym.x | Sym.y, Sym.y => 2 * total_weight pts
  | _, _ => 0
  end.
Proof.
  rewrite eval_diff2_objective.
  induction pts as [| p ps IH].
  - destruct s, t; cbn; ring.
  - destruct (sums_cons p ps) as (Hw & _). rewrite Hw.
    cbn [fold_right]. rewrite IH, eval_diff2_term. destruct s, t; ring.
Qed.

Lemma value_objective (rho : env) (pts : list weighted_point) :
  eval rho (objective pts) =
  fold_right
    (fun p s => weight p * ((rho Sym.x - px p) ^ 2 + (rho Sym.y - py p) ^ 2) + s)
    0 pts.
Proof.
  rewrite eval_objective. induction pts as [| p ps IH]; cbn [fold_right]; [reflexivity |].
  rewrite IH, eval_term. reflexivity.
Qed.

(** ** The linear solver on the two systems of the script *)

Lemma nonzero_0 : nonzero 0 = false.
Proof.
  unfold nonzero. destruct (Req_dec_T 0 0) as [_ | N]; [reflexivity | contradiction].
Qed.

Lemma nonzero_true (a : R) : a <> 0 -> nonzero a = true.
Proof.
  intros Ha. unfold nonzero.
  destruct (Req_dec_T a 0) as [E | _]; [contradiction | reflexivity].
Qed.

(** One elimination step whose pivot is the first row left. *)
Lemma gauss_jordan_pivot (c : nat) (cs : list nat) (pivots pivots' : list (nat * row))
    (r : row) (rest rest' : list row) :
  entry c r <> 0 ->
  map (fun kr => (fst kr, eliminate (entry c (snd kr)) (scale (/ entry c r) r) (snd kr)))
      pivots ++ [(c, scale (/ entry c r) r)] = pivots' ->
  map (fun r' => eliminate (entry c r') (scale (/ entry c r) r) r') rest = rest' ->
  gauss_jordan (c :: cs) pivots (r :: rest) = gauss_jordan cs pivots' rest'.
Proof.
  intros Hp <- <-. cbn [gauss_jordan find_pivot].
  destruct (Req_dec_T (entry c r) 0) as [E | _]; [contradiction | reflexivity].
Qed.

Ltac row_eq :=
  cbn [map app fst snd entry nth scale eliminate];
  repeat (f_equal; try (field; assumption)).

Lemma solve_diagonal (a c1 c2 : R) :
  a <> 0 ->
  solve_linear_system [Sym.x; Sym.y] [[a; 0; c1]; [0; a; c2]] =
  Some [(Sym.x, Num (c1 / a)); (Sym.y, Num (c2 / a))].
Proof.
  intros Ha. unfold solve_linear_system. cbn [length seq].
  rewrite (gauss_jordan_pivot 0 _ _ [(0%nat, [1; 0; c1 / a])] _ _ [[0; a; c2]]);
    [| exact Ha | row_eq | row_eq].
  rewrite (gauss_jordan_pivot 1 _ _
             [(0%nat, [1; 0; c1 / a]); (1%nat, [0; 1; c2 / a])] _ _ []);
    [| exact Ha | row_eq | row_eq].
  cbn [gauss_jordan existsb map fst snd nth].
  unfold row_value. cbn [length seq combine fold_left fst snd Nat.eqb entry nth].
  rewrite !nonzero_0. reflexivity.
Qed.

Lemma solve_lagrange (a m b c1 c2 : R) :
  a <> 0 ->
  let l := (a * b + m * c1 - c2) / (m * m + 1) in
  solve_linear_system [Sym.x; Sym.y; Sym.L]
    [[a; 0; m; c1]; [0; a; -1; c2]; [- m; 1; 0; b]] =
  Some [(Sym.x, Num ((c1 - m * l) / a)); (Sym.y, Num ((c2 + l) / a));
        (Sym.L, Num l)].
Proof.
  intros Ha l.
  assert (Hm : m * m + 1 <> 0) by nra.
  unfold solve_linear_system. cbn [length seq].
  rewrite (gauss_jordan_pivot 0 _ _ [(0%nat, [1; 0; m / a; c1 / a])] _ _
             [[0; a; -1; c2]; [0; 1; m * m / a; b + m * c1 / a]]);
    [| exact Ha | row_eq | row_eq].
  rewrite (gauss_jordan_pivot 1 _ _
             [(0%nat, [1; 0; m / a; c1 / a]); (1%nat, [0; 1; -1 / a; c2 / a])] _ _
             [[0; 0; (m * m + 1) / a; b + m * c1 / a - c2 / a]]);
    [| exact Ha | row_eq | row_eq].
  rewrite (gauss_jordan_pivot 2 _ _
             [(0%nat, [1; 0; 0; (c1 - m * l) / a]);
              (1%nat, [0; 1; 0; (c2 + l) / a]);
              (2%nat, [0; 0; 1; l])] _ _ []).
  - cbn [gauss_jordan existsb map fst snd nth].
    unfold row_value. cbn [length seq combine fold_left fst snd Nat.eqb entry nth].
    rewrite !nonzero_0. reflexivity.
  - cbn [entry nth]. intros E. apply Hm.
    apply (Rmult_eq_compat_r a) in E. field_simplify in E; [lra | exact Ha].
  - subst l. cbn [map app fst snd entry nth scale eliminate].
    repeat (f_equal; try (field; split; assumption)).
  - reflexivity.
Qed.

(** Two systems without a unique solution: one unknown stays free,
    and no solution at all. *)

Example solve_underdetermined :
  solve [Sub (Add (Var Sym.x) (Var Sym.y)) (Num 1)] [Sym.x; Sym.y] =
  PyDict [(Sym.x, Sub (Num 1) (Mul (Num 1) (Var Sym.y)))].
Proof.
  unfold solve, solve_linear_system, augmented_row, coeff, origin_env.
  cbn [map app diff eval Sym.eqb length seq].
  replace (1 + 0 - 0) with 1 by ring.
  replace (0 + 1 - 0) with 1 by ring.
  replace (- (0 + 0 - 1)) with 1 by ring.
  rewrite (gauss_jordan_pivot 0 _ _ [(0%nat, [1; 1; 1])] _ _ []);
    [| cbn; lra | row_eq; lra | reflexivity].
  cbn [gauss_jordan find_pivot existsb map fst snd nth].
  unfold row_value. cbn [length seq combine fold_left fst snd Nat.eqb entry nth].
  rewrite nonzero_true by lra. reflexivity.
Qed.

Example solve_inconsistent :
  solve [Sub (Add (Var Sym.x) (Var Sym.y)) (Num 1);
         Sub (Add (Var Sym.x) (Var Sym.y)) (Num 2)] [Sym.x; Sym.y] =
  PyList [].
Proof.
  unfold solve, solve_linear_system, augmented_row, coeff, origin_env.
  cbn [map app diff eval Sym.eqb length seq].
  replace (1 + 0 - 0) with 1 by ring.
  replace (0 + 1 - 0) with 1 by ring.
  replace (- (0 + 0 - 1)) with 1 by ring.
  replace (- (0 + 0 - 2)) with 2 by ring.
  rewrite (gauss_jordan_pivot 0 _ _ [(0%nat, [1; 1; 1])] _ _ [[0; 0; 1]]);
    [| cbn; lra | row_eq; lra | row_eq; lra].
  cbn [gauss_jordan find_pivot entry nth].
  destruct (Req_dec_T 0 0) as [_ | N]; [| contradiction].
  cbn [existsb entry nth]. rewrite nonzero_true by lra. reflexivity.
Qed.

(** The augmented matrices of the two systems. *)

Lemma unconstrained_rows (pts : list weighted_point) :
  map (augmented_row [Sym.x; Sym.y])
      [diff (objective pts) Sym.x; diff (objective pts) Sym.y] =
  [[2 * total_weight pts; 0; 2 * weighted_sum_x pts];
   [0; 2 * total_weight pts; 2 * weighted_sum_y pts]].
Proof.
  unfold augmented_row, coeff. cbn [map app].
  rewrite !hessian_objective, !gradient_objective. unfold origin_env.
  repeat (f_equal; try ring).
Qed.

Lemma lagrange_rows (pts : list weighted_point) (m b : R) :
  let u := objective pts in
  let g := Sub (Sub (Var Sym.y) (Mul (Num m) (Var Sym.x))) (Num b) in
  map (augmented_row [Sym.x; Sym.y; Sym.L])
      [Sub (diff u Sym.x) (Mul (Var Sym.L) (diff g Sym.x));
       Sub (diff u Sym.y) (Mul (Var Sym.L) (diff g Sym.y));
       g] =
  [[2 * total_weight pts; 0; m; 2 * weighted_sum_x pts];
   [0; 2 * total_weight pts; -1; 2 * weighted_sum_y pts];
   [- m; 1; 0; b]].
Proof.
  intros u g. subst u g. unfold augmented_row, coeff.
  cbn [map app diff eval Sym.eqb].
  rewrite !hessian_objective, !gradient_objective. unfold origin_env.
  repeat (f_equal; try ring).
Qed.

Lemma positive_total_weight (pts : list weighted_point) :
  pts <> [] -> Forall (fun p => 0 < weight p) pts -> 0 < total_weight pts.
Proof.
  intros Hne Hpos.
  assert (Hnn : forall l, Forall (fun p => 0 < weight p) l -> 0 <= total_weight l).
  { induction 1 as [| p l Hp _ IH];
      [cbn; lra | rewrite (proj1 (sums_cons p l)); lra]. }
  destruct Hpos as [| p l Hp Hl]; [contradiction |].
  rewrite (proj1 (sums_cons p l)). specialize (Hnn l Hl). lra.
Qed.

Lemma unconstrained_sol_objective (pts : list weighted_point) :
  total_weight pts <> 0 ->
  unconstrained_sol (objective pts) =
  PyDict [(Sym.x, Num (fst (weighted_centroid pts)));
          (Sym.y, Num (snd (weighted_centroid pts)))].
Proof.
  intros Hw. unfold unconstrained_sol, solve.
  rewrite unconstrained_rows, solve_diagonal by lra.
  unfold weighted_centroid. cbn [fst snd].
  repeat (f_equal; try (field; exact Hw)).
Qed.

Lemma U_objective (x1 y1 x2 y2 x3 y3 : R) :
  U x1 y1 x2 y2 x3 y3 =
  objective [WeightedPoint 1 x1 y1; WeightedPoint 2 x2 y2; WeightedPoint 3 x3 y3].
Proof. reflexivity. Qed.

(** ** The objective as a quadratic *)

Lemma value_expand (pts : list weighted_point) (q : R * R) :
  value pts q =
  total_weight pts * (fst q * fst q + snd q * snd q)
  - 2 * fst q * weighted_sum_x pts - 2 * snd q * weighted_sum_y pts
  + weighted_sum_sq pts.
Proof.
  unfold value. rewrite value_objective. cbn [point_env].
  induction pts as [| p ps IH].
  - cbn. ring.
  - destruct (sums_cons p ps) as (Hw & Hx & Hy). rewrite Hw, Hx, Hy.
    cbn [fold_right]. rewrite IH.
    change (weighted_sum_sq (p :: ps))
      with (weight p * (px p * px p + py p * py p) + weighted_sum_sq ps).
    ring.
Qed.

(** On the line [y = m * x + b] the objective is a parabola in [x] with
    its vertex at the abscissa [cx]. *)
Lemma value_on_line (pts : list weighted_point) (m b cx qx : R) :
  cx * (total_weight pts * (1 + m * m)) =
    weighted_sum_x pts + m * (weighted_sum_y pts - b * total_weight pts) ->
  value pts (qx, m * qx + b) - value pts (cx, m * cx + b) =
  total_weight pts * (1 + m * m) * ((qx - cx) * (qx - cx)).
Proof.
  intros Hc. rewrite !value_expand. cbn [fst snd].
  assert (Hx : weighted_sum_x pts =
               cx * (total_weight pts * (1 + m * m))
               - m * (weighted_sum_y pts - b * total_weight pts)) by lra.
  rewrite Hx. ring.
Qed.

Lemma orthogonal_projection_on_line (p : R * R) (m b : R) :
  snd (orthogonal_projection p m b) = m * fst (orthogonal_projection p m b) + b.
Proof. reflexivity. Qed.

Lemma orthogonal_projection_perpendicular (p : R * R) (m b : R) :
  let q := orthogonal_projection p m b in
  (fst p - fst q) * 1 + (snd p - snd q) * m = 0.
Proof.
  cbn. field. nra.
Qed.

(** The foot of the perpendicular is the point of the line nearest to [p]. *)
Lemma orthogonal_projection_nearest (p : R * R) (m b tx : R) :
  let q := orthogonal_projection p m b in
  (fst p - fst q) ^ 2 + (snd p - snd q) ^ 2 <=
  (fst p - tx) ^ 2 + (snd p - (m * tx + b)) ^ 2.
Proof.
  intros q.
  assert (Hperp := orthogonal_projection_perpendicular p m b).
  assert (Hline := orthogonal_projection_on_line p m b).
  fold q in Hperp, Hline. cbn zeta in Hperp.
  set (qx := fst q) in *. set (qy := snd q) in *.
  assert (E : (fst p - tx) ^ 2 + (snd p - (m * tx + b)) ^ 2 =
              (fst p - qx) ^ 2 + (snd p - qy) ^ 2
              + (1 + m * m) * (qx - tx) ^ 2
              + 2 * (qx - tx) * ((fst p - qx) * 1 + (snd p - qy) * m)).
  { rewrite Hline. ring. }
  rewrite E, Hperp.
  assert (0 <= (1 + m * m) * (qx - tx) ^ 2)
    by (apply Rmult_le_pos; [nra | apply pow2_ge_0]).
  lra.
Qed.

Lemma lagrange_sol_objective (pts : list weighted_point) (m b : R) :
  total_weight pts <> 0 ->
  let q := orthogonal_projection (weighted_centroid pts) m b in
  let l := 2 * (total_weight pts * b + m * weighted_sum_x pts - weighted_sum_y pts)
           / (m * m + 1) in
  lagrange_sol (objective pts) m b =
  PyDict [(Sym.x, Num (fst q)); (Sym.y, Num (snd q)); (Sym.L, Num l)].
Proof.
  intros Hw q l. subst q l.
  assert (Hm : m * m + 1 <> 0) by nra.
  assert (Hm' : 1 + m * m <> 0) by nra.
  pose proof (lagrange_rows pts m b) as Hrows. cbv zeta in Hrows.
  unfold lagrange_sol, solve. cbv zeta. rewrite Hrows.
  rewrite solve_lagrange by lra. cbv zeta.
  unfold orthogonal_projection, weighted_centroid. cbn [fst snd].
  repeat (f_equal; try (field; repeat split; assumption)).
Qed.

Lemma float_Num (r : R) : float (Num r) = Ok r.
Proof. reflexivity. Qed.

Lemma extract_unconstrained_dict (vx vy : R) (more : list (Sym.symbol * expr)) :
  extract_unconstrained (PyDict ((Sym.x, Num vx) :: (Sym.y, Num vy) :: more)) =
  Ok (vx, vy).
Proof. reflexivity. Qed.

Lemma extract_constrained_dict (vx vy : R) (more : list (Sym.symbol * expr)) :
  extract_constrained (PyDict ((Sym.x, Num vx) :: (Sym.y, Num vy) :: more)) =
  Ok (Some (vx, vy)).
Proof. reflexivity. Qed.

(** ** The projection and its inverse *)

Lemma cos_ORIGIN_LAT : cos (ORIGIN_LAT * PI / 180) <> 0.
Proof.
  assert (Hpi := PI_RGT_0).
  assert (0 < cos (ORIGIN_LAT * PI / 180)); [| lra].
  unfold ORIGIN_LAT. apply cos_gt_0; lra.
Qed.

(** C4. For every geographic point and origin, [deg_to_kms] returns
    [dx = R * dlong_rad * cos(origin_lat_rad)] and [dy = R * dlat_rad],
    with [R = 6371] and [dlong_rad], [dlat_rad] the differences point
    minus origin, converted from degrees to radians. *)
Theorem deg_to_kms_equirectangular
    (point_long point_lat origin_long origin_lat : R) :
  let earth_radius := 6371 in
  let dlong_rad := (point_long - origin_long) * PI / 180 in
  let dlat_rad := (point_lat - origin_lat) * PI / 180 in
  deg_to_kms point_long point_lat origin_long origin_lat =
  Ok (earth_radius * dlong_rad * cos (origin_lat * PI / 180),
      earth_radius * dlat_rad).
Proof.
  cbv zeta. rewrite deg_to_kms_eq. f_equal. f_equal; [f_equal |]; lra.
Qed.

(** C3. About an origin whose latitude has a non-zero cosine, the two
    conversions are inverse to each other: degrees to kilometres and
    back returns the geographic point, kilometres to degrees and back
    returns the local point.  The equalities are exact, so they hold
    within any tolerance. *)
Theorem projection_round_trip (origin_long origin_lat : R) :
  cos (origin_lat * PI / 180) <> 0 ->
  (forall point_long point_lat,
      (q <- deg_to_kms point_long point_lat origin_long origin_lat ;;
       kms_to_deg (fst q) (snd q) origin_long origin_lat) =
      Ok (point_long, point_lat)) /\
  (forall local_x local_y,
      (p <- kms_to_deg local_x local_y origin_long origin_lat ;;
       deg_to_kms (fst p) (snd p) origin_long origin_lat) =
      Ok (local_x, local_y)).
Proof.
  intros Hc. assert (Hpi := PI_neq0). split.
  - intros point_long point_lat. rewrite deg_to_kms_eq. cbn [bind fst snd].
    rewrite kms_to_deg_eq by exact Hc. f_equal. f_equal; field; auto.
  - intros local_x local_y. rewrite kms_to_deg_eq by exact Hc. cbn [bind fst snd].
    rewrite deg_to_kms_eq. f_equal. f_equal; field; auto.
Qed.

Lemma projection_round_trip_witness :
  cos (ORIGIN_LAT * PI / 180) <> 0 /\
  (q <- deg_to_kms (fst di_global) (snd di_global) ORIGIN_LONG ORIGIN_LAT ;;
   kms_to_deg (fst q) (snd q) ORIGIN_LONG ORIGIN_LAT) = Ok di_global /\
  (p <- kms_to_deg 1 2 ORIGIN_LONG ORIGIN_LAT ;;
   deg_to_kms (fst p) (snd p) ORIGIN_LONG ORIGIN_LAT) = Ok (1, 2).
Proof.
  split; [exact cos_ORIGIN_LAT |]. split.
  - apply (proj1 (projection_round_trip ORIGIN_LONG ORIGIN_LAT cos_ORIGIN_LAT)).
  - apply (proj2 (projection_round_trip ORIGIN_LONG ORIGIN_LAT cos_ORIGIN_LAT)).
Defined.

(** C8. The local point (0, 0) is the origin: the origin maps to
    (0, 0), and (0, 0) maps back to the origin.  The first holds for
    every origin whatever the cosine; the second for every origin at
    which the cosine computed is not exactly zero, which includes the
    poles in binary64. *)
Theorem origin_is_local_zero (math_cos : R -> R) (origin_long origin_lat : R) :
  deg_to_kms_with math_cos origin_long origin_lat origin_long origin_lat =
    Ok (0, 0) /\
  (math_cos (origin_lat * PI / 180) <> 0 ->
   kms_to_deg_with math_cos 0 0 origin_long origin_lat =
     Ok (origin_long, origin_lat)).
Proof.
  assert (Hpi := PI_neq0). split.
  - rewrite deg_to_kms_with_eq. f_equal. f_equal; ring.
  - intros Hc. rewrite kms_to_deg_with_eq by exact Hc.
    f_equal. f_equal; field; auto.
Qed.

(** At the script's origin with the real cosine, and at the pole
    (0, 90) with the cosine binary64 computes there. *)
Lemma origin_is_local_zero_witness :
  (cos (ORIGIN_LAT * PI / 180) <> 0 /\
   kms_to_deg 0 0 ORIGIN_LONG ORIGIN_LAT = Ok (ORIGIN_LONG, ORIGIN_LAT)) /\
  (cos_at_pole <> 0 /\
   deg_to_kms_with (fun _ => cos_at_pole) 0 90 0 90 = Ok (0, 0) /\
   kms_to_deg_with (fun _ => cos_at_pole) 0 0 0 90 = Ok (0, 90)).
Proof.
  assert (Hp : cos_at_pole <> 0) by (unfold cos_at_pole; lra).
  split; [split; [exact cos_ORIGIN_LAT |] | split; [exact Hp | split]].
  - exact (proj2 (origin_is_local_zero cos ORIGIN_LONG ORIGIN_LAT) cos_ORIGIN_LAT).
  - exact (proj1 (origin_is_local_zero (fun _ => cos_at_pole) 0 90)).
  - exact (proj2 (origin_is_local_zero (fun _ => cos_at_pole) 0 90) Hp).
Defined.

(** C6, as the code has it.  Neither conversion checks the cosine of
    the origin's latitude, and neither raises a domain error.
    [deg_to_kms] returns [dx = R * dlong_rad * c] for whatever value
    [c] the cosine has; [kms_to_deg] returns
    [origin_long + x / (R * c) * 180 / pi] whenever [c] is not exactly
    zero, however small, and the only exception it can raise is
    [ZeroDivisionError], for [c] exactly zero. *)
Theorem pole_projections_unguarded (math_cos : R -> R)
    (point_long point_lat local_x local_y origin_long origin_lat : R) :
  let c := math_cos (origin_lat * PI / 180) in
  deg_to_kms_with math_cos point_long point_lat origin_long origin_lat =
    Ok (6371 * ((point_long - origin_long) * PI / 180) * c,
        6371 * ((point_lat - origin_lat) * PI / 180)) /\
  (c <> 0 ->
   kms_to_deg_with math_cos local_x local_y origin_long origin_lat =
     Ok (origin_long + local_x / (6371 * c) * 180 / PI,
         origin_lat + local_y / 6371 * 180 / PI)) /\
  (forall e : exn,
      kms_to_deg_with math_cos local_x local_y origin_long origin_lat = Raise e ->
      e = ZeroDivisionError /\ c = 0).
Proof.
  intros c. split; [| split].
  - rewrite deg_to_kms_with_eq. fold c. f_equal. f_equal; [f_equal |]; lra.
  - intros Hc. apply kms_to_deg_with_eq. exact Hc.
  - intros e H. destruct (Req_dec_T c 0) as [Hc | Hc].
    + rewrite (kms_to_deg_with_zero math_cos _ _ _ _ Hc) in H.
      injection H as <-. split; [reflexivity | exact Hc].
    + rewrite (kms_to_deg_with_eq math_cos _ _ _ _ Hc) in H. discriminate H.
Qed.

(** At the pole (0, 90), with the cosine binary64 computes there, both
    conversions return: the inverse gives a longitude of about 1.5e14
    degrees for one kilometre. *)
Lemma pole_projections_unguarded_witness :
  cos_at_pole <> 0 /\
  deg_to_kms_with (fun _ => cos_at_pole) 10 80 0 90 =
    Ok (6371 * ((10 - 0) * PI / 180) * cos_at_pole,
        6371 * ((80 - 90) * PI / 180)) /\
  kms_to_deg_with (fun _ => cos_at_pole) 1 1 0 90 =
    Ok (0 + 1 / (6371 * cos_at_pole) * 180 / PI, 90 + 1 / 6371 * 180 / PI).
Proof.
  assert (Hp : cos_at_pole <> 0) by (unfold cos_at_pole; lra).
  split; [exact Hp |]. split.
  - exact (proj1 (pole_projections_unguarded (fun _ => cos_at_pole) 10 80 1 1 0 90)).
  - exact (proj1 (proj2 (pole_projections_unguarded
                           (fun _ => cos_at_pole) 10 80 1 1 0 90)) Hp).
Defined.

(** C6 as stated fails: about the pole (0, 90) there is no value of the
    cosine for which the two conversions stop with a domain error. *)
Lemma pole_no_domain_error :
  ~ (exists math_cos : R -> R,
        deg_to_kms_with math_cos 10 80 0 90 = Raise DomainError /\
        kms_to_deg_with math_cos 1 1 0 90 = Raise DomainError).
Proof.
  intros (math_cos & Hf & _).
  rewrite deg_to_kms_with_eq in Hf. discriminate Hf.
Qed.

(** ** Part A: the unconstrained optimum *)

(** The gradient vanishes at the weighted centroid and nowhere else. *)
Lemma stationary_iff_centroid (pts : list weighted_point) (q : R * R) :
  total_weight pts <> 0 ->
  (eval (point_env q) (diff (objective pts) Sym.x) = 0 /\
   eval (point_env q) (diff (objective pts) Sym.y) = 0) <->
  q = weighted_centroid pts.
Proof.
  intros Hw. rewrite !gradient_objective. destruct q as [qx qy].
  unfold weighted_centroid. cbn [point_env fst snd]. split.
  - intros [Hx Hy]. f_equal.
    + apply (Rmult_eq_reg_l (total_weight pts)); [| exact Hw].
      field_simplify; [lra | exact Hw].
    + apply (Rmult_eq_reg_l (total_weight pts)); [| exact Hw].
      field_simplify; [lra | exact Hw].
  - intros E. injection E as -> ->. split; field; exact Hw.
Qed.

(** C1. For every non-empty list of reference points with positive
    weights, solving gradient = 0 returns the weighted centroid
    [(sum w_i x_i / sum w_i, sum w_i y_i / sum w_i)], which is the one
    point where the gradient vanishes; in particular the solve over [U]
    with weights 1, 2, 3 equals the direct arithmetic closed form. *)
Theorem unconstrained_sol_is_weighted_centroid (pts : list weighted_point) :
  pts <> [] ->
  Forall (fun p => 0 < weight p) pts ->
  unconstrained_sol (objective pts) =
    PyDict [(Sym.x, Num (weighted_sum_x pts / total_weight pts));
            (Sym.y, Num (weighted_sum_y pts / total_weight pts))] /\
  extract_unconstrained (unconstrained_sol (objective pts)) =
    Ok (weighted_centroid pts) /\
  (forall q : R * R,
      eval (point_env q) (diff (objective pts) Sym.x) = 0 /\
      eval (point_env q) (diff (objective pts) Sym.y) = 0 <->
      q = weighted_centroid pts) /\
  (forall x1 y1 x2 y2 x3 y3 : R,
      extract_unconstrained (unconstrained_sol (U x1 y1 x2 y2 x3 y3)) =
      Ok ((1 * x1 + 2 * x2 + 3 * x3) / (1 + 2 + 3),
          (1 * y1 + 2 * y2 + 3 * y3) / (1 + 2 + 3))).
Proof.
  intros Hne Hpos.
  assert (Hw : total_weight pts <> 0).
  { pose proof (positive_total_weight pts Hne Hpos). lra. }
  split; [| split; [| split]].
  - rewrite unconstrained_sol_objective by exact Hw. reflexivity.
  - rewrite unconstrained_sol_objective by exact Hw. reflexivity.
  - intros q. apply stationary_iff_centroid. exact Hw.
  - intros x1 y1 x2 y2 x3 y3. rewrite U_objective.
    rewrite unconstrained_sol_objective by (cbn; lra).
    rewrite extract_unconstrained_dict. unfold weighted_centroid.
    cbn [fst snd total_weight weighted_sum_x weighted_sum_y fold_right
         weight px py].
    f_equal. f_equal; field.
Qed.

Lemma unconstrained_sol_is_weighted_centroid_witness :
  let pts := [WeightedPoint 1 0 0; WeightedPoint 2 10 0; WeightedPoint 3 0 10] in
  pts <> [] /\
  Forall (fun p => 0 < weight p) pts /\
  extract_unconstrained (unconstrained_sol (objective pts)) =
    Ok (weighted_centroid pts).
Proof.
  cbv zeta.
  assert (Hne : [WeightedPoint 1 0 0; WeightedPoint 2 10 0; WeightedPoint 3 0 10]
                <> []) by discriminate.
  assert (Hpos : Forall (fun p => 0 < weight p)
                   [WeightedPoint 1 0 0; WeightedPoint 2 10 0; WeightedPoint 3 0 10])
    by (repeat constructor; cbn; lra).
  split; [exact Hne |]. split; [exact Hpos |].
  exact (proj1 (proj2 (unconstrained_sol_is_weighted_centroid _ Hne Hpos))).
Defined.

(** The example of the design document: (0,0) with weight 1, (10,0) with
    weight 2, (0,10) with weight 3 give (20/6, 30/6). *)
Example centroid_example :
  extract_unconstrained (unconstrained_sol (U 0 0 10 0 0 10)) = Ok (20 / 6, 30 / 6).
Proof.
  rewrite U_objective, unconstrained_sol_objective by (cbn; lra).
  rewrite extract_unconstrained_dict. unfold weighted_centroid. cbn.
  f_equal. f_equal; field.
Qed.

(** ** Part B: the optimum on the street *)

Lemma constrained_sol_eq (u : expr) (ho_x ho_y res_x res_y : R) :
  res_x <> ho_x ->
  constrained_sol u ho_x ho_y res_x res_y =
  Ok (lagrange_sol u ((res_y - ho_y) / (res_x - ho_x))
        (ho_y - (res_y - ho_y) / (res_x - ho_x) * ho_x)).
Proof.
  intros Hx. unfold constrained_sol. rewrite div_nonzero by lra. reflexivity.
Qed.

Lemma constrained_sol_vertical (u : expr) (ho_x ho_y res_x res_y : R) :
  res_x = ho_x ->
  constrained_sol u ho_x ho_y res_x res_y = Raise ZeroDivisionError.
Proof.
  intros Hx. unfold constrained_sol. rewrite div_zero by lra. reflexivity.
Qed.

(** The optimum on the line is strictly better than any other point of
    the line. *)
Lemma projection_strict_minimum (pts : list weighted_point) (m b : R) (q : R * R) :
  0 < total_weight pts ->
  let c := orthogonal_projection (weighted_centroid pts) m b in
  snd q = m * fst q + b -> q <> c -> value pts c < value pts q.
Proof.
  intros Hw c Hq Hne.
  assert (Hm : 0 < 1 + m * m) by nra.
  destruct q as [qx qy]. cbn [fst snd] in Hq. subst qy.
  set (cx := fst c).
  assert (Hc : c = (cx, m * cx + b)) by reflexivity.
  assert (Hv : cx * (total_weight pts * (1 + m * m)) =
               weighted_sum_x pts + m * (weighted_sum_y pts - b * total_weight pts)).
  { subst cx c. unfold orthogonal_projection, weighted_centroid. cbn [fst snd].
    field. split; lra. }
  pose proof (value_on_line pts m b cx qx Hv) as Hd.
  rewrite Hc.
  assert (Hx : qx <> cx).
  { intros E. apply Hne. rewrite Hc, E. reflexivity. }
  assert (0 < (qx - cx) * (qx - cx)) by nra.
  assert (0 < total_weight pts * (1 + m * m) * ((qx - cx) * (qx - cx))).
  { apply Rmult_lt_0_compat; [apply Rmult_lt_0_compat |]; assumption. }
  lra.
Qed.

(** C2. For every non-vertical street (endpoints with different
    abscissas, hence a line [y = m * x + b]) and reference points with
    positive weights, the constrained solve returns a point that lies on
    the line exactly and at which the objective is strictly smaller than
    at any other point of the line. *)
Theorem constrained_sol_on_line_unique_minimum
    (pts : list weighted_point) (ho_x ho_y res_x res_y : R) :
  pts <> [] ->
  Forall (fun p => 0 < weight p) pts ->
  res_x <> ho_x ->
  let m_slope := (res_y - ho_y) / (res_x - ho_x) in
  let b_intercept := ho_y - m_slope * ho_x in
  exists (sol : pyvalue) (c : R * R),
    constrained_sol (objective pts) ho_x ho_y res_x res_y = Ok sol /\
    extract_constrained sol = Ok (Some c) /\
    snd c = m_slope * fst c + b_intercept /\
    (forall q : R * R,
        snd q = m_slope * fst q + b_intercept -> q <> c ->
        value pts c < value pts q).
Proof.
  intros Hne Hpos Hx m_slope b_intercept.
  pose proof (positive_total_weight pts Hne Hpos) as Hw.
  exists (lagrange_sol (objective pts) m_slope b_intercept).
  exists (orthogonal_projection (weighted_centroid pts) m_slope b_intercept).
  split; [apply constrained_sol_eq; exact Hx |].
  split.
  { rewrite lagrange_sol_objective by lra. apply extract_constrained_dict. }
  split; [apply orthogonal_projection_on_line |].
  intros q Hq Hqc. apply projection_strict_minimum; assumption.
Qed.

(** The test of the design document: the street through (0,0) and
    (10,10) and the points (0,0), (10,0), (0,10) with weights 1, 2, 3. *)
Lemma constrained_sol_on_line_unique_minimum_witness :
  let pts := [WeightedPoint 1 0 0; WeightedPoint 2 10 0; WeightedPoint 3 0 10] in
  pts <> [] /\
  Forall (fun p => 0 < weight p) pts /\
  10 <> 0 /\
  exists (sol : pyvalue) (c : R * R),
    constrained_sol (objective pts) 0 0 10 10 = Ok sol /\
    extract_constrained sol = Ok (Some c) /\
    snd c = (10 - 0) / (10 - 0) * fst c + (0 - (10 - 0) / (10 - 0) * 0) /\
    (forall q : R * R,
        snd q = (10 - 0) / (10 - 0) * fst q + (0 - (10 - 0) / (10 - 0) * 0) ->
        q <> c -> value pts c < value pts q).
Proof.
  cbv zeta.
  assert (Hne : [WeightedPoint 1 0 0; WeightedPoint 2 10 0; WeightedPoint 3 0 10]
                <> []) by discriminate.
  assert (Hpos : Forall (fun p => 0 < weight p)
                   [WeightedPoint 1 0 0; WeightedPoint 2 10 0; WeightedPoint 3 0 10])
    by (repeat constructor; cbn; lra).
  assert (Hx : 10 <> 0) by lra.
  split; [exact Hne |]. split; [exact Hpos |]. split; [exact Hx |].
  exact (constrained_sol_on_line_unique_minimum _ 0 0 10 10 Hne Hpos Hx).
Defined.

(** C9. For every non-vertical street and positive total weight, the
    constrained optimum is the orthogonal projection of the weighted
    centroid (the unconstrained optimum) onto the line of the street:
    it lies on the line and the segment from it to the centroid is
    perpendicular to the direction (1, m).  The objective is the total
    weight times the squared distance to the centroid, plus a
    constant. *)
Theorem constrained_optimum_projects_centroid
    (pts : list weighted_point) (ho_x ho_y res_x res_y : R) :
  0 < total_weight pts ->
  res_x <> ho_x ->
  let m_slope := (res_y - ho_y) / (res_x - ho_x) in
  let b_intercept := ho_y - m_slope * ho_x in
  let centroid := weighted_centroid pts in
  let c := orthogonal_projection centroid m_slope b_intercept in
  extract_unconstrained (unconstrained_sol (objective pts)) = Ok centroid /\
  (exists sol : pyvalue,
      constrained_sol (objective pts) ho_x ho_y res_x res_y = Ok sol /\
      extract_constrained sol = Ok (Some c)) /\
  snd c = m_slope * fst c + b_intercept /\
  (fst centroid - fst c) * 1 + (snd centroid - snd c) * m_slope = 0 /\
  (forall q : R * R,
      value pts q =
      total_weight pts
        * ((fst q - fst centroid) ^ 2 + (snd q - snd centroid) ^ 2)
      + value pts centroid).
Proof.
  intros Hw Hx m_slope b_intercept centroid c.
  assert (Hw0 : total_weight pts <> 0) by lra.
  split; [| split; [| split; [| split]]].
  - rewrite unconstrained_sol_objective by exact Hw0.
    apply extract_unconstrained_dict.
  - exists (lagrange_sol (objective pts) m_slope b_intercept). split.
    + apply constrained_sol_eq. exact Hx.
    + rewrite lagrange_sol_objective by exact Hw0.
      apply extract_constrained_dict.
  - apply orthogonal_projection_on_line.
  - apply (orthogonal_projection_perpendicular centroid m_slope b_intercept).
  - intros q. rewrite !value_expand. subst centroid.
    unfold weighted_centroid. cbn [fst snd]. field. exact Hw0.
Qed.

(** The street through (0,0) and (10,10) and the points (0,0), (10,0),
    (0,10) with weights 1, 2, 3. *)
Lemma constrained_optimum_projects_centroid_witness :
  let pts := [WeightedPoint 1 0 0; WeightedPoint 2 10 0; WeightedPoint 3 0 10] in
  0 < total_weight pts /\
  10 <> 0 /\
  exists sol : pyvalue,
    constrained_sol (objective pts) 0 0 10 10 = Ok sol /\
    extract_constrained sol =
      Ok (Some (orthogonal_projection (weighted_centroid pts)
                  ((10 - 0) / (10 - 0)) (0 - (10 - 0) / (10 - 0) * 0))).
Proof.
  cbv zeta.
  assert (Hw : 0 < total_weight
                     [WeightedPoint 1 0 0; WeightedPoint 2 10 0; WeightedPoint 3 0 10])
    by (cbn; lra).
  assert (Hx : 10 <> 0) by lra.
  split; [exact Hw |]. split; [exact Hx |].
  exact (proj1 (proj2 (constrained_optimum_projects_centroid _ 0 0 10 10 Hw Hx))).
Defined.

(** C5, as the code has it.  When the two street endpoints have the
    same abscissa the slope is a division by zero: the constrained
    solve stops with [ZeroDivisionError] before any system is solved. *)
Theorem vertical_street_raises_zero_division
    (u : expr) (ho_x ho_y res_x res_y : R) :
  res_x = ho_x ->
  constrained_sol u ho_x ho_y res_x res_y = Raise ZeroDivisionError.
Proof. apply constrained_sol_vertical. Qed.

Lemma vertical_street_raises_zero_division_witness :
  5 = 5 /\
  constrained_sol (U 0 0 10 0 0 10) 5 0 5 10 = Raise ZeroDivisionError.
Proof.
  split; [reflexivity |].
  apply (vertical_street_raises_zero_division (U 0 0 10 0 0 10) 5 0 5 10).
  reflexivity.
Defined.

(** C5 as stated fails: for the vertical street from (5,0) to (5,10)
    the solve neither raises a domain error nor returns a point of the
    line [x = 5]. *)
Lemma vertical_street_unguarded :
  ~ (5 = 5 ->
     constrained_sol (U 0 0 10 0 0 10) 5 0 5 10 = Raise DomainError \/
     exists (sol : pyvalue) (c : R * R),
       constrained_sol (U 0 0 10 0 0 10) 5 0 5 10 = Ok sol /\
       extract_constrained sol = Ok (Some c) /\ fst c = 5).
Proof.
  intros H.
  pose proof (constrained_sol_vertical (U 0 0 10 0 0 10) 5 0 5 10 eq_refl) as E.
  destruct (H eq_refl) as [Hd | (sol & c & Hs & _)].
  - rewrite E in Hd. discriminate Hd.
  - rewrite E in Hs. discriminate Hs.
Qed.

(** ** Zero total weight *)

(** With total weight zero both equations lose their unknowns: the
    elimination finds no pivot, and the answer is the empty list
    whether the constants left are zero or not. *)
Lemma solve_without_pivot (c1 c2 : R) :
  match solve_linear_system [Sym.x; Sym.y] [[0; 0; c1]; [0; 0; c2]] with
  | None => True
  | Some d => d = []
  end.
Proof.
  unfold solve_linear_system.
  cbn [length seq gauss_jordan find_pivot entry nth].
  destruct (Req_dec_T 0 0) as [_ | N]; [| contradiction].
  cbn [existsb entry nth]. unfold nonzero.
  destruct (Req_dec_T c1 0), (Req_dec_T c2 0); cbn; auto.
Qed.

Lemma unconstrained_sol_zero_weight (pts : list weighted_point) :
  total_weight pts = 0 ->
  unconstrained_sol (objective pts) = PyList [].
Proof.
  intros Hw. unfold unconstrained_sol, solve. rewrite unconstrained_rows, Hw.
  replace (2 * 0) with 0 by ring.
  pose proof (solve_without_pivot (2 * weighted_sum_x pts) (2 * weighted_sum_y pts)) as H.
  destruct (solve_linear_system _ _) as [d |]; [subst d |]; reflexivity.
Qed.

(** C7, as the code has it.  If the total weight is 0 the unconstrained
    solve produces no result: [solve] answers the empty list and reading
    [unconstrained_sol[x]] raises [TypeError]. *)
Theorem zero_total_weight_raises_type_error (pts : list weighted_point) :
  total_weight pts = 0 ->
  unconstrained_sol (objective pts) = PyList [] /\
  extract_unconstrained (unconstrained_sol (objective pts)) = Raise TypeError.
Proof.
  intros Hw. rewrite (unconstrained_sol_zero_weight pts Hw).
  split; reflexivity.
Qed.

Lemma zero_total_weight_raises_type_error_witness :
  let pts := [WeightedPoint 1 0 0; WeightedPoint (-1) 1 0] in
  total_weight pts = 0 /\
  unconstrained_sol (objective pts) = PyList [] /\
  extract_unconstrained (unconstrained_sol (objective pts)) = Raise TypeError.
Proof.
  cbv zeta.
  assert (Hw : total_weight [WeightedPoint 1 0 0; WeightedPoint (-1) 1 0] = 0)
    by (cbn; lra).
  split; [exact Hw |].
  exact (zero_total_weight_raises_type_error _ Hw).
Defined.

(** C7 as stated fails: weights 1 and -1 sum to 0 and the solve does not
    stop with a domain error. *)
Lemma zero_total_weight_no_domain_error :
  ~ (total_weight [WeightedPoint 1 0 0; WeightedPoint (-1) 1 0] = 0 ->
     extract_unconstrained
       (unconstrained_sol (objective [WeightedPoint 1 0 0; WeightedPoint (-1) 1 0])) =
     Raise DomainError).
Proof.
  intros H.
  assert (Hw : total_weight [WeightedPoint 1 0 0; WeightedPoint (-1) 1 0] = 0)
    by (cbn; lra).
  specialize (H Hw). rewrite (unconstrained_sol_zero_weight _ Hw) in H.
  discriminate H.
Qed.

(** The weights of the script are 1, 2 and 3: the total is never 0. *)
Lemma total_weight_U (x1 y1 x2 y2 x3 y3 : R) :
  total_weight [WeightedPoint 1 x1 y1; WeightedPoint 2 x2 y2; WeightedPoint 3 x3 y3] = 6.
Proof. cbn. lra. Qed.

(** ** Results conversion *)

Lemma bind_ok {A B : Type} (c : result A) (k : A -> result B) (b : B) :
  bind c k = Ok b -> exists a, c = Ok a /\ k a = Ok b.
Proof.
  destruct c as [a | e]; cbn; [eauto | discriminate].
Qed.

Lemma extract_constrained_shape (v : pyvalue) (c : R * R) :
  extract_constrained v = Ok (Some c) ->
  (exists e0 e1 more rest, v = PyList ((e0 :: e1 :: more) :: rest)) \/
  (exists d ex ey,
      v = PyDict d /\ lookup d Sym.x = Some ex /\ lookup d Sym.y = Some ey).
Proof.
  destruct v as [l | d |]; cbn [extract_constrained]; intros H.
  - left. destruct l as [| [| e0 [| e1 more]] rest]; cbn in H; try discriminate H.
    + destruct (float e0); cbn in H; discriminate H.
    + eauto.
  - right. unfold getitem_symbol in H.
    destruct (lookup d Sym.x) as [ex |] eqn:Ex; cbn in H; [| discriminate H].
    destruct (float ex); cbn in H; [| discriminate H].
    destruct (lookup d Sym.y) as [ey |] eqn:Ey; cbn in H; [| discriminate H].
    exists d, ex, ey. auto.
  - discriminate H.
Qed.

(** C10. The extraction step binds [cons_x_local] and [cons_y_local]
    only when the solver's result is a list or a dict.  For a result
    that is neither, the names stay unbound and the conversion to
    degrees stops with [NameError].  The conversion succeeds only if
    the constrained result is a list whose first tuple has two entries
    or a dict with the keys [x] and [y]. *)
Theorem extraction_needs_list_or_dict
    (unconstrained constrained : pyvalue) (origin_long origin_lat : R) :
  (forall c : R * R,
      extract_constrained constrained = Ok (Some c) ->
      (exists l, constrained = PyList l) \/ (exists d, constrained = PyDict d)) /\
  ((forall l, constrained <> PyList l) ->
   (forall d, constrained <> PyDict d) ->
   extract_constrained constrained = Ok None /\
   (forall unc_local unc : R * R,
       extract_unconstrained unconstrained = Ok unc_local ->
       kms_to_deg (fst unc_local) (snd unc_local) origin_long origin_lat = Ok unc ->
       results_conversion unconstrained constrained origin_long origin_lat =
       Raise NameError)) /\
  (forall r : (R * R) * (R * R),
      results_conversion unconstrained constrained origin_long origin_lat = Ok r ->
      (exists e0 e1 more rest, constrained = PyList ((e0 :: e1 :: more) :: rest)) \/
      (exists d ex ey,
          constrained = PyDict d /\
          lookup d Sym.x = Some ex /\ lookup d Sym.y = Some ey)).
Proof.
  split; [| split].
  - intros c H.
    destruct (extract_constrained_shape constrained c H)
      as [(e0 & e1 & more & rest & E) | (d & ex & ey & E & _)]; eauto.
  - intros Hl Hd. destruct constrained as [l | d |].
    + contradiction (Hl l). reflexivity.
    + contradiction (Hd d). reflexivity.
    + split; [reflexivity |].
      intros unc_local unc Hu Hk. unfold results_conversion.
      rewrite Hu. cbn [bind extract_constrained]. rewrite Hk. reflexivity.
  - intros r H. unfold results_conversion in H.
    apply bind_ok in H. destruct H as (unc_local & _ & H).
    apply bind_ok in H. destruct H as (names & Hn & H).
    apply bind_ok in H. destruct H as (unc & _ & H).
    apply bind_ok in H. destruct H as (cons_local & Hr & _).
    destruct names as [c |]; [| discriminate Hr].
    exact (extract_constrained_shape constrained c Hn).
Qed.

Lemma extraction_needs_list_or_dict_witness :
  (forall l, PyOther <> PyList l) /\
  (forall d, PyOther <> PyDict d) /\
  extract_unconstrained (PyDict [(Sym.x, Num 1); (Sym.y, Num 2)]) = Ok (1, 2) /\
  results_conversion (PyDict [(Sym.x, Num 1); (Sym.y, Num 2)]) PyOther
    ORIGIN_LONG ORIGIN_LAT = Raise NameError.
Proof.
  assert (Hl : forall l, PyOther <> PyList l) by discriminate.
  assert (Hd : forall d, PyOther <> PyDict d) by discriminate.
  split; [exact Hl |]. split; [exact Hd |]. split; [reflexivity |].
  refine (proj2 (proj1 (proj2
            (extraction_needs_list_or_dict
               (PyDict [(Sym.x, Num 1); (Sym.y, Num 2)]) PyOther
               ORIGIN_LONG ORIGIN_LAT)) Hl Hd) (1, 2) _ eq_refl _).
  apply kms_to_deg_eq. exact cos_ORIGIN_LAT.
Defined.

(** An empty list is a list: the first branch is taken and indexing
    raises [IndexError]. *)
Example extract_constrained_empty_list :
  extract_constrained (PyList []) = Raise IndexError.
Proof. reflexivity. Qed.

(** ** The script on its data *)

Lemma script_unguarded_steps (origin_long origin_lat : R) (di ob ga ho res : R * R) :
  cos (origin_lat * PI / 180) <> 0 ->
  fst res <> fst ho ->
  exists r, script origin_long origin_lat di ob ga ho res = Ok r.
Proof.
  intros Hc Hx. assert (Hpi := PI_RGT_0). unfold script.
  rewrite !deg_to_kms_eq. cbn [bind fst snd].
  rewrite constrained_sol_eq.
  2:{ intros E. apply Hx.
      assert (H : (fst res - fst ho) * (6371 * (PI / 180) * cos (origin_lat * PI / 180)) = 0)
        by lra.
      apply Rmult_integral in H. destruct H as [H | H]; [lra |].
      exfalso. apply Rmult_integral in H. destruct H as [H | H]; [lra | contradiction]. }
  cbn [bind]. rewrite !U_objective.
  unfold results_conversion.
  rewrite unconstrained_sol_objective by (rewrite total_weight_U; lra).
  rewrite lagrange_sol_objective by (rewrite total_weight_U; lra).
  cbv zeta. rewrite extract_unconstrained_dict, extract_constrained_dict.
  cbn [bind read_names fst snd].
  rewrite !kms_to_deg_eq by exact Hc. cbn [bind]. eauto.
Qed.

Lemma main_returns : exists r, main = Ok r.
Proof.
  apply script_unguarded_steps; [exact cos_ORIGIN_LAT |].
  unfold res_global, ho_global. cbn [fst]. lra.
Qed.

(** * Further properties of the script *)

(** ** Derivatives *)

Lemma update_same (rho : env) (s : Sym.symbol) (t : R) : update rho s t s = t.
Proof. unfold update. destruct s; reflexivity. Qed.

(** [diff] is differentiation: along any symbol, the value of [diff e s]
    is the derivative of the value of [e]. *)
Lemma diff_sound (e : expr) (s : Sym.symbol) (rho : env) (t : R) :
  derivable_pt_lim (fun u => eval (update rho s u) e) t
    (eval (update rho s t) (diff e s)).
Proof.
  induction e as [r | v | a IHa b IHb | a IHa b IHb | a IHa b IHb | a IHa n].
  - cbn. apply (derivable_pt_lim_const r).
  - cbn [diff eval]. unfold update.
    destruct (Sym.eqb v s); cbn [eval].
    + apply derivable_pt_lim_id.
    + apply (derivable_pt_lim_const (rho v)).
  - cbn [diff eval].
    apply (derivable_pt_lim_plus _ _ _ _ _ IHa IHb).
  - cbn [diff eval].
    apply (derivable_pt_lim_minus _ _ _ _ _ IHa IHb).
  - cbn [diff eval].
    apply (derivable_pt_lim_mult _ _ _ _ _ IHa IHb).
  - destruct n as [| k].
    + cbn. apply (derivable_pt_lim_const 1).
    + cbn [diff]. cbn [eval].
      pose proof (derivable_pt_lim_comp
                    (fun u => eval (update rho s u) a) (fun y => y ^ S k) t _ _
                    IHa (derivable_pt_lim_pow _ (S k))) as H.
      cbn [pred] in H.
      exact H.
Qed.

Lemma eval_ext (rho rho' : env) (e : expr) :
  (forall s, rho s = rho' s) -> eval rho e = eval rho' e.
Proof.
  intros H. induction e; cbn; congruence.
Qed.

(** The expressions [diff(e, x)] and [diff(e, y)] that the script builds
    ([eq_1], [eq_2], [grad_g1], [grad_g2]) are the partial derivatives
    of [e]: at every point of the plane their values are the derivatives
    of the value of [e] along [x] and along [y]. *)
Theorem diff_is_partial_derivative (e : expr) (q : R * R) :
  derivable_pt_lim (fun t => eval (point_env (t, snd q)) e) (fst q)
    (eval (point_env q) (diff e Sym.x)) /\
  derivable_pt_lim (fun t => eval (point_env (fst q, t)) e) (snd q)
    (eval (point_env q) (diff e Sym.y)).
Proof.
  destruct q as [qx qy]. cbn [fst snd]. split.
  - apply (derivable_pt_lim_ext
             (fun t => eval (update (point_env (qx, qy)) Sym.x t) e)).
    + intros u. apply eval_ext. intros []; reflexivity.
    + rewrite (eval_ext (point_env (qx, qy))
                 (update (point_env (qx, qy)) Sym.x qx))
        by (intros []; reflexivity).
      apply diff_sound.
  - apply (derivable_pt_lim_ext
             (fun t => eval (update (point_env (qx, qy)) Sym.y t) e)).
    + intros u. apply eval_ext. intros []; reflexivity.
    + rewrite (eval_ext (point_env (qx, qy))
                 (update (point_env (qx, qy)) Sym.y qy))
        by (intros []; reflexivity).
      apply diff_sound.
Qed.

(** ** The two optima *)

Lemma value_about_centroid (pts : list weighted_point) (q : R * R) :
  total_weight pts <> 0 ->
  value pts q =
  total_weight pts
    * ((fst q - fst (weighted_centroid pts)) ^ 2
       + (snd q - snd (weighted_centroid pts)) ^ 2)
  + value pts (weighted_centroid pts).
Proof.
  intros Hw. rewrite !value_expand. unfold weighted_centroid. cbn [fst snd].
  field. exact Hw.
Qed.

(** With positive total weight the point returned by the unconstrained
    solve is the strict global minimum of the objective: every other
    point of the plane has a larger value. *)
Theorem unconstrained_sol_global_minimum (pts : list weighted_point) (q : R * R) :
  0 < total_weight pts ->
  exists c : R * R,
    extract_unconstrained (unconstrained_sol (objective pts)) = Ok c /\
    (q <> c -> value pts c < value pts q).
Proof.
  intros Hw. exists (weighted_centroid pts). split.
  - rewrite unconstrained_sol_objective by lra. apply extract_unconstrained_dict.
  - intros Hq. rewrite (value_about_centroid pts q) by lra.
    set (c := weighted_centroid pts) in *.
    assert (Hd : 0 < (fst q - fst c) ^ 2 + (snd q - snd c) ^ 2).
    { destruct (Req_dec_T (fst q) (fst c)) as [Ex | Nx].
      - destruct (Req_dec_T (snd q) (snd c)) as [Ey | Ny].
        + exfalso. apply Hq. destruct q, c. cbn in Ex, Ey. congruence.
        + assert (0 < (snd q - snd c) ^ 2) by (cbn [pow]; nra).
          pose proof (pow2_ge_0 (fst q - fst c)). lra.
      - assert (0 < (fst q - fst c) ^ 2) by (cbn [pow]; nra).
        pose proof (pow2_ge_0 (snd q - snd c)). lra. }
    assert (0 < total_weight pts * ((fst q - fst c) ^ 2 + (snd q - snd c) ^ 2))
      by (apply Rmult_lt_0_compat; assumption).
    lra.
Qed.

Lemma unconstrained_sol_global_minimum_witness :
  let pts := [WeightedPoint 1 0 0; WeightedPoint 2 10 0; WeightedPoint 3 0 10] in
  0 < total_weight pts /\
  exists c : R * R,
    extract_unconstrained (unconstrained_sol (objective pts)) = Ok c /\
    ((0, 0) <> c -> value pts c < value pts (0, 0)).
Proof.
  cbv zeta.
  assert (Hw : 0 < total_weight
                     [WeightedPoint 1 0 0; WeightedPoint 2 10 0; WeightedPoint 3 0 10])
    by (cbn; lra).
  split; [exact Hw |].
  exact (unconstrained_sol_global_minimum _ (0, 0) Hw).
Defined.

Lemma lagrange_sol_system (u : expr) (m b : R) :
  lagrange_sol u m b = solve (lagrange_system u m b) [Sym.x; Sym.y; Sym.L].
Proof. reflexivity. Qed.

Lemma lagrange_system_values (pts : list weighted_point) (m b : R) (rho : env) :
  map (eval rho) (lagrange_system (objective pts) m b) =
  [2 * (total_weight pts * rho Sym.x - weighted_sum_x pts) + m * rho Sym.L;
   2 * (total_weight pts * rho Sym.y - weighted_sum_y pts) - rho Sym.L;
   rho Sym.y - m * rho Sym.x - b].
Proof.
  unfold lagrange_system. cbn [map eval diff Sym.eqb].
  rewrite !gradient_objective. repeat (f_equal; try ring).
Qed.

(** With non-zero total weight the dict returned by the Lagrange solve
    is the one and only solution of the three equations handed to
    [solve]: the stationarity of [U - L * g] in [x] and [y] and the
    constraint [g = 0]. *)
Theorem lagrange_sol_solves_system (pts : list weighted_point) (m b : R) :
  total_weight pts <> 0 ->
  exists cx cy l : R,
    lagrange_sol (objective pts) m b =
      PyDict [(Sym.x, Num cx); (Sym.y, Num cy); (Sym.L, Num l)] /\
    (forall rho : env,
        Forall (fun e => eval rho e = 0) (lagrange_system (objective pts) m b) <->
        rho Sym.x = cx /\ rho Sym.y = cy /\ rho Sym.L = l).
Proof.
  intros Hw. assert (Hm : m * m + 1 <> 0) by nra.
  pose proof (lagrange_sol_objective pts m b Hw) as Hs. cbv zeta in Hs.
  eexists. eexists. eexists. split; [exact Hs |].
  intros rho. rewrite Forall_forall.
  pose proof (lagrange_system_values pts m b rho) as Hv.
  unfold orthogonal_projection, weighted_centroid. cbn [fst snd].
  set (W := total_weight pts) in *. set (Sx := weighted_sum_x pts) in *.
  set (Sy := weighted_sum_y pts) in *.
  split.
  - intros H.
    assert (H3 : Forall (fun v => v = 0) (map (eval rho) (lagrange_system (objective pts) m b))).
    { rewrite Forall_forall. intros v Hin. apply in_map_iff in Hin.
      destruct Hin as (e & <- & He). apply H. exact He. }
    rewrite Hv in H3.
    pose proof (Forall_inv H3) as E1.
    pose proof (Forall_inv (Forall_inv_tail H3)) as E2.
    pose proof (Forall_inv (Forall_inv_tail (Forall_inv_tail H3))) as E3.
    cbn beta in E1, E2, E3.
    assert (El : rho Sym.L = 2 * (W * b + m * Sx - Sy) / (m * m + 1)).
    { apply (Rmult_eq_reg_r (m * m + 1)); [| exact Hm].
      unfold Rdiv. rewrite Rmult_assoc, Rinv_l, Rmult_1_r by exact Hm. nra. }
    assert (Ex : rho Sym.x = (Sx / W + m * (Sy / W - b)) / (1 + m * m)).
    { apply (Rmult_eq_reg_r (W * (1 + m * m)));
        [| apply Rmult_integral_contrapositive_currified; [exact Hw | lra]].
      transitivity (Sx + m * (Sy - b * W));
        [nra | field; repeat split; first [exact Hw | lra]]. }
    split; [exact Ex |]. split; [| exact El].
    rewrite <- Ex. lra.
  - intros (Ex & Ey & El) e Hin.
    assert (Hin' : In (eval rho e) (map (eval rho) (lagrange_system (objective pts) m b)))
      by (apply in_map; exact Hin).
    rewrite Hv, Ex, Ey, El in Hin'. cbn [In] in Hin'.
    destruct Hin' as [<- | [<- | [<- | []]]]; field; repeat split;
      first [exact Hw | lra].
Qed.

Lemma lagrange_sol_solves_system_witness :
  let pts := [WeightedPoint 1 0 0; WeightedPoint 2 10 0; WeightedPoint 3 0 10] in
  total_weight pts <> 0 /\
  exists cx cy l : R,
    lagrange_sol (objective pts) 1 0 =
      PyDict [(Sym.x, Num cx); (Sym.y, Num cy); (Sym.L, Num l)] /\
    (forall rho : env,
        Forall (fun e => eval rho e = 0) (lagrange_system (objective pts) 1 0) <->
        rho Sym.x = cx /\ rho Sym.y = cy /\ rho Sym.L = l).
Proof.
  cbv zeta.
  assert (Hw : total_weight
                 [WeightedPoint 1 0 0; WeightedPoint 2 10 0; WeightedPoint 3 0 10] <> 0)
    by (cbn; lra).
  split; [exact Hw |].
  exact (lagrange_sol_solves_system _ 1 0 Hw).
Defined.

(** With positive total weight the multiplier returned by the Lagrange
    solve is zero exactly when the unconstrained optimum already lies on
    the street, and then the constrained optimum is the unconstrained
    one. *)
Theorem multiplier_zero_iff_centroid_on_line
    (pts : list weighted_point) (m b : R) :
  0 < total_weight pts ->
  let centroid := weighted_centroid pts in
  exists l : R,
    getitem_symbol (lagrange_sol (objective pts) m b) Sym.L = Ok (Num l) /\
    (l = 0 <-> snd centroid = m * fst centroid + b) /\
    (snd centroid = m * fst centroid + b ->
     extract_constrained (lagrange_sol (objective pts) m b) = Ok (Some centroid)).
Proof.
  intros Hw centroid. assert (Hw0 : total_weight pts <> 0) by lra.
  assert (Hm : 0 < m * m + 1) by nra.
  pose proof (lagrange_sol_objective pts m b Hw0) as Hs. cbv zeta in Hs.
  rewrite Hs. eexists. split; [reflexivity |].
  subst centroid. unfold weighted_centroid. cbn [fst snd].
  set (W := total_weight pts) in *. set (Sx := weighted_sum_x pts) in *.
  set (Sy := weighted_sum_y pts) in *.
  assert (Hon : Sy / W = m * (Sx / W) + b <-> W * b + m * Sx - Sy = 0).
  { split; intros H.
    - apply (Rmult_eq_compat_l W) in H. field_simplify in H; [lra | exact Hw0 ..].
    - apply (Rmult_eq_reg_l W); [| exact Hw0]. field_simplify; [lra | exact Hw0 ..]. }
  split.
  - rewrite Hon. split; intros H.
    + apply (Rmult_eq_compat_r (m * m + 1)) in H.
      unfold Rdiv in H. rewrite Rmult_assoc, Rinv_l, Rmult_0_l in H by lra. lra.
    + unfold Rdiv. replace (W * b + m * Sx - Sy) with 0 by lra. ring.
  - intros H. rewrite extract_constrained_dict. f_equal. f_equal.
    unfold orthogonal_projection. cbn [fst snd]. rewrite H.
    f_equal; field; lra.
Qed.

Lemma multiplier_zero_iff_centroid_on_line_witness :
  let pts := [WeightedPoint 1 0 0; WeightedPoint 2 10 0; WeightedPoint 3 0 10] in
  0 < total_weight pts /\
  exists l : R,
    getitem_symbol (lagrange_sol (objective pts) 1 0) Sym.L = Ok (Num l) /\
    (l = 0 <-> snd (weighted_centroid pts) = 1 * fst (weighted_centroid pts) + 0) /\
    (snd (weighted_centroid pts) = 1 * fst (weighted_centroid pts) + 0 ->
     extract_constrained (lagrange_sol (objective pts) 1 0) =
     Ok (Some (weighted_centroid pts))).
Proof.
  cbv zeta.
  assert (Hw : 0 < total_weight
                     [WeightedPoint 1 0 0; WeightedPoint 2 10 0; WeightedPoint 3 0 10])
    by (cbn; lra).
  split; [exact Hw |].
  exact (multiplier_zero_iff_centroid_on_line _ 1 0 Hw).
Defined.

(** What the street costs: with positive total weight the objective at
    the constrained optimum exceeds its value at the unconstrained
    optimum by the total weight times the squared distance from the
    unconstrained optimum to the line. *)
Theorem constraint_cost (pts : list weighted_point) (m b : R) :
  0 < total_weight pts ->
  let centroid := weighted_centroid pts in
  exists c : R * R,
    extract_constrained (lagrange_sol (objective pts) m b) = Ok (Some c) /\
    value pts c - value pts centroid =
      total_weight pts * ((snd centroid - m * fst centroid - b) ^ 2 / (1 + m * m)) /\
    value pts centroid <= value pts c.
Proof.
  intros Hw centroid. assert (Hw0 : total_weight pts <> 0) by lra.
  assert (Hm : 0 < 1 + m * m) by nra.
  exists (orthogonal_projection centroid m b).
  split.
  { rewrite lagrange_sol_objective by exact Hw0. apply extract_constrained_dict. }
  assert (E : value pts (orthogonal_projection centroid m b) - value pts centroid =
              total_weight pts
              * ((snd centroid - m * fst centroid - b) ^ 2 / (1 + m * m))).
  { rewrite (value_about_centroid pts (orthogonal_projection centroid m b)) by exact Hw0.
    fold centroid. unfold orthogonal_projection. cbn [fst snd]. field. lra. }
  split; [exact E |].
  assert (0 <= (snd centroid - m * fst centroid - b) ^ 2 / (1 + m * m)).
  { apply Rmult_le_pos; [apply pow2_ge_0 | left; apply Rinv_0_lt_compat; exact Hm]. }
  assert (0 <= total_weight pts
               * ((snd centroid - m * fst centroid - b) ^ 2 / (1 + m * m)))
    by (apply Rmult_le_pos; [lra | assumption]).
  lra.
Qed.

Lemma constraint_cost_witness :
  let pts := [WeightedPoint 1 0 0; WeightedPoint 2 10 0; WeightedPoint 3 0 10] in
  0 < total_weight pts /\
  exists c : R * R,
    extract_constrained (lagrange_sol (objective pts) 1 0) = Ok (Some c) /\
    value pts c - value pts (weighted_centroid pts) =
      total_weight pts
      * ((snd (weighted_centroid pts) - 1 * fst (weighted_centroid pts) - 0) ^ 2
         / (1 + 1 * 1)) /\
    value pts (weighted_centroid pts) <= value pts c.
Proof.
  cbv zeta.
  assert (Hw : 0 < total_weight
                     [WeightedPoint 1 0 0; WeightedPoint 2 10 0; WeightedPoint 3 0 10])
    by (cbn; lra).
  split; [exact Hw |].
  exact (constraint_cost _ 1 0 Hw).
Defined.

(** Only the line matters, not the two points that give it: any two
    points with different abscissas on the line through the street
    endpoints lead to the same result of the constrained solve.  In
    particular the order of the two endpoints does not matter. *)
Theorem constrained_sol_same_line
    (u : expr) (ho_x ho_y res_x res_y ax ay bx by_ : R) :
  res_x <> ho_x ->
  bx <> ax ->
  (ay - ho_y) * (res_x - ho_x) = (res_y - ho_y) * (ax - ho_x) ->
  (by_ - ho_y) * (res_x - ho_x) = (res_y - ho_y) * (bx - ho_x) ->
  constrained_sol u ax ay bx by_ = constrained_sol u ho_x ho_y res_x res_y /\
  constrained_sol u res_x res_y ho_x ho_y = constrained_sol u ho_x ho_y res_x res_y.
Proof.
  intros Hx Hab Ha Hb.
  assert (Hline : forall px py qx qy : R,
             qx <> px ->
             (py - ho_y) * (res_x - ho_x) = (res_y - ho_y) * (px - ho_x) ->
             (qy - ho_y) * (res_x - ho_x) = (res_y - ho_y) * (qx - ho_x) ->
             constrained_sol u px py qx qy = constrained_sol u ho_x ho_y res_x res_y).
  { intros px py qx qy Hpq Hp Hq.
    rewrite !constrained_sol_eq by assumption.
    set (m := (res_y - ho_y) / (res_x - ho_x)).
    assert (Hm : m * (res_x - ho_x) = res_y - ho_y) by (subst m; field; lra).
    assert (Hpy : py = ho_y + m * (px - ho_x)).
    { apply (Rmult_eq_reg_r (res_x - ho_x)); [nra | lra]. }
    assert (Hqy : qy = ho_y + m * (qx - ho_x)).
    { apply (Rmult_eq_reg_r (res_x - ho_x)); [nra | lra]. }
    assert (Em : (qy - py) / (qx - px) = m) by (rewrite Hpy, Hqy; field; lra).
    rewrite Em. f_equal. f_equal. rewrite Hpy. ring. }
  split.
  - apply Hline; assumption.
  - apply Hline; [auto | ring | ring].
Qed.

Lemma constrained_sol_same_line_witness :
  10 <> 0 /\ 3 <> 1 /\
  (1 - 0) * (10 - 0) = (10 - 0) * (1 - 0) /\
  (3 - 0) * (10 - 0) = (10 - 0) * (3 - 0) /\
  constrained_sol (U 0 0 10 0 0 10) 1 1 3 3 =
  constrained_sol (U 0 0 10 0 0 10) 0 0 10 10.
Proof.
  assert (H1 : 10 <> 0) by lra.
  assert (H2 : 3 <> 1) by lra.
  assert (H3 : (1 - 0) * (10 - 0) = (10 - 0) * (1 - 0)) by lra.
  assert (H4 : (3 - 0) * (10 - 0) = (10 - 0) * (3 - 0)) by lra.
  repeat (split; [assumption |]).
  exact (proj1 (constrained_sol_same_line (U 0 0 10 0 0 10) 0 0 10 10 1 1 3 3
                  H1 H2 H3 H4)).
Defined.

(** ** How the optima depend on the reference points *)

Lemma sums_scale_weight (k : R) (pts : list weighted_point) :
  total_weight (map (scale_weight k) pts) = k * total_weight pts /\
  weighted_sum_x (map (scale_weight k) pts) = k * weighted_sum_x pts /\
  weighted_sum_y (map (scale_weight k) pts) = k * weighted_sum_y pts.
Proof.
  induction pts as [| p ps (IHw & IHx & IHy)].
  - cbn. repeat split; ring.
  - cbn [map]. destruct (sums_cons (scale_weight k p) (map (scale_weight k) ps))
      as (Hw & Hx & Hy).
    destruct (sums_cons p ps) as (Hw' & Hx' & Hy').
    rewrite Hw, Hx, Hy, Hw', Hx', Hy', IHw, IHx, IHy. cbn [scale_weight weight px py].
    repeat split; ring.
Qed.

(** Only the ratios of the weights matter: multiplying every weight by
    the same non-zero factor changes neither the unconstrained optimum
    nor the constrained one. *)
Theorem optima_invariant_under_weight_scaling
    (k : R) (pts : list weighted_point) (m b : R) :
  k <> 0 ->
  total_weight pts <> 0 ->
  extract_unconstrained (unconstrained_sol (objective (map (scale_weight k) pts))) =
  extract_unconstrained (unconstrained_sol (objective pts)) /\
  extract_constrained (lagrange_sol (objective (map (scale_weight k) pts)) m b) =
  extract_constrained (lagrange_sol (objective pts) m b).
Proof.
  intros Hk Hw.
  destruct (sums_scale_weight k pts) as (Ew & Ex & Ey).
  assert (Hkw : total_weight (map (scale_weight k) pts) <> 0).
  { rewrite Ew. apply Rmult_integral_contrapositive_currified; assumption. }
  assert (Ec : weighted_centroid (map (scale_weight k) pts) = weighted_centroid pts).
  { unfold weighted_centroid. rewrite Ew, Ex, Ey. f_equal; field; split; assumption. }
  split.
  - rewrite !unconstrained_sol_objective by assumption.
    rewrite !extract_unconstrained_dict, Ec. reflexivity.
  - pose proof (lagrange_sol_objective (map (scale_weight k) pts) m b Hkw) as H1.
    pose proof (lagrange_sol_objective pts m b Hw) as H2.
    cbv zeta in H1, H2. rewrite H1, H2, !extract_constrained_dict, Ec. reflexivity.
Qed.

Lemma optima_invariant_under_weight_scaling_witness :
  let pts := [WeightedPoint 1 0 0; WeightedPoint 2 10 0; WeightedPoint 3 0 10] in
  5 <> 0 /\
  total_weight pts <> 0 /\
  extract_unconstrained (unconstrained_sol (objective (map (scale_weight 5) pts))) =
  extract_unconstrained (unconstrained_sol (objective pts)).
Proof.
  cbv zeta.
  assert (Hk : 5 <> 0) by lra.
  assert (Hw : total_weight
                 [WeightedPoint 1 0 0; WeightedPoint 2 10 0; WeightedPoint 3 0 10] <> 0)
    by (cbn; lra).
  split; [exact Hk |]. split; [exact Hw |].
  exact (proj1 (optima_invariant_under_weight_scaling 5 _ 0 0 Hk Hw)).
Defined.

Lemma weighted_sums_in_box (lo_x hi_x lo_y hi_y : R) (pts : list weighted_point) :
  Forall (fun p => 0 < weight p /\ lo_x <= px p <= hi_x /\ lo_y <= py p <= hi_y) pts ->
  0 <= total_weight pts /\
  lo_x * total_weight pts <= weighted_sum_x pts <= hi_x * total_weight pts /\
  lo_y * total_weight pts <= weighted_sum_y pts <= hi_y * total_weight pts.
Proof.
  induction 1 as [| p ps (Hp & Hpx & Hpy) _ (IHw & IHx & IHy)].
  - cbn. lra.
  - destruct (sums_cons p ps) as (Hw & Hx & Hy). rewrite Hw, Hx, Hy. nra.
Qed.

(** With positive weights the unconstrained optimum lies among the
    reference points: inside every axis-parallel box that holds all of
    them. *)
Theorem unconstrained_sol_in_bounding_box
    (lo_x hi_x lo_y hi_y : R) (pts : list weighted_point) :
  pts <> [] ->
  Forall (fun p => 0 < weight p /\ lo_x <= px p <= hi_x /\ lo_y <= py p <= hi_y) pts ->
  exists c : R * R,
    extract_unconstrained (unconstrained_sol (objective pts)) = Ok c /\
    lo_x <= fst c <= hi_x /\ lo_y <= snd c <= hi_y.
Proof.
  intros Hne Hbox.
  assert (Hpos : Forall (fun p => 0 < weight p) pts).
  { rewrite Forall_forall in *. intros p Hp. apply (Hbox p Hp). }
  pose proof (positive_total_weight pts Hne Hpos) as Hw.
  destruct (weighted_sums_in_box _ _ _ _ pts Hbox) as (_ & Hx & Hy).
  exists (weighted_centroid pts). split.
  { rewrite unconstrained_sol_objective by lra. apply extract_unconstrained_dict. }
  unfold weighted_centroid. cbn [fst snd].
  assert (Hi : 0 < / total_weight pts) by (apply Rinv_0_lt_compat; exact Hw).
  assert (E : forall a, a * total_weight pts / total_weight pts = a)
    by (intros a; field; lra).
  split; split.
  - rewrite <- (E lo_x). unfold Rdiv. apply Rmult_le_compat_r; lra.
  - rewrite <- (E hi_x). unfold Rdiv. apply Rmult_le_compat_r; lra.
  - rewrite <- (E lo_y). unfold Rdiv. apply Rmult_le_compat_r; lra.
  - rewrite <- (E hi_y). unfold Rdiv. apply Rmult_le_compat_r; lra.
Qed.

Lemma unconstrained_sol_in_bounding_box_witness :
  let pts := [WeightedPoint 1 0 0; WeightedPoint 2 10 0; WeightedPoint 3 0 10] in
  pts <> [] /\
  Forall (fun p => 0 < weight p /\ 0 <= px p <= 10 /\ 0 <= py p <= 10) pts /\
  exists c : R * R,
    extract_unconstrained (unconstrained_sol (objective pts)) = Ok c /\
    0 <= fst c <= 10 /\ 0 <= snd c <= 10.
Proof.
  cbv zeta.
  assert (Hne : [WeightedPoint 1 0 0; WeightedPoint 2 10 0; WeightedPoint 3 0 10]
                <> []) by discriminate.
  assert (Hbox : Forall (fun p => 0 < weight p /\ 0 <= px p <= 10 /\ 0 <= py p <= 10)
                   [WeightedPoint 1 0 0; WeightedPoint 2 10 0; WeightedPoint 3 0 10])
    by (repeat constructor; cbn; lra).
  split; [exact Hne |]. split; [exact Hbox |].
  exact (unconstrained_sol_in_bounding_box 0 10 0 10 _ Hne Hbox).
Defined.

(** One more reference point pulls the unconstrained optimum straight
    towards it: with positive total weight [W] and a new point of
    positive weight [d], the offset from the new point to the optimum
    shrinks by the factor [W / (W + d)]. *)
Theorem new_point_attracts_optimum (p : weighted_point) (pts : list weighted_point) :
  0 < total_weight pts ->
  0 < weight p ->
  exists c c' : R * R,
    extract_unconstrained (unconstrained_sol (objective pts)) = Ok c /\
    extract_unconstrained (unconstrained_sol (objective (p :: pts))) = Ok c' /\
    fst c' - px p = total_weight pts / (total_weight pts + weight p) * (fst c - px p) /\
    snd c' - py p = total_weight pts / (total_weight pts + weight p) * (snd c - py p).
Proof.
  intros Hw Hp.
  destruct (sums_cons p pts) as (Ew & Ex & Ey).
  exists (weighted_centroid pts), (weighted_centroid (p :: pts)).
  split; [| split].
  - rewrite unconstrained_sol_objective by lra. apply extract_unconstrained_dict.
  - rewrite unconstrained_sol_objective by (rewrite Ew; lra).
    apply extract_unconstrained_dict.
  - unfold weighted_centroid. cbn [fst snd]. rewrite Ew, Ex, Ey.
    split; field; split; lra.
Qed.

Lemma new_point_attracts_optimum_witness :
  let pts := [WeightedPoint 2 10 0; WeightedPoint 3 0 10] in
  0 < total_weight pts /\
  0 < weight (WeightedPoint 1 0 0) /\
  exists c c' : R * R,
    extract_unconstrained (unconstrained_sol (objective pts)) = Ok c /\
    extract_unconstrained
      (unconstrained_sol (objective (WeightedPoint 1 0 0 :: pts))) = Ok c' /\
    fst c' - 0 = total_weight pts / (total_weight pts + 1) * (fst c - 0) /\
    snd c' - 0 = total_weight pts / (total_weight pts + 1) * (snd c - 0).
Proof.
  cbv zeta.
  assert (Hw : 0 < total_weight [WeightedPoint 2 10 0; WeightedPoint 3 0 10])
    by (cbn; lra).
  assert (Hp : 0 < weight (WeightedPoint 1 0 0)) by (cbn; lra).
  split; [exact Hw |]. split; [exact Hp |].
  exact (new_point_attracts_optimum (WeightedPoint 1 0 0) _ Hw Hp).
Defined.

(** ** Reading the results of [solve] *)

(** The constrained coordinates are bound to [(a, b)] exactly in two
    cases: the result is a list whose first tuple starts with two
    numbers [a] and [b], or it is a dict whose entries for [x] and [y]
    are the numbers [a] and [b]. *)
Theorem extract_constrained_binds_iff (v : pyvalue) (a b : R) :
  extract_constrained v = Ok (Some (a, b)) <->
  (exists e0 e1 more rest,
      v = PyList ((e0 :: e1 :: more) :: rest) /\ float e0 = Ok a /\ float e1 = Ok b) \/
  (exists d ex ey,
      v = PyDict d /\ lookup d Sym.x = Some ex /\ lookup d Sym.y = Some ey /\
      float ex = Ok a /\ float ey = Ok b).
Proof.
  split.
  - destruct v as [l | d |]; cbn [extract_constrained]; intros H.
    + left. destruct l as [| [| e0 [| e1 more]] rest]; cbn in H; try discriminate H.
      * destruct (float e0); cbn in H; discriminate H.
      * destruct (float e0) as [a0 |] eqn:E0; cbn in H; [| discriminate H].
        destruct (float e1) as [b0 |] eqn:E1; cbn in H; [| discriminate H].
        injection H as <- <-. exists e0, e1, more, rest. auto.
    + right. unfold getitem_symbol in H.
      destruct (lookup d Sym.x) as [ex |] eqn:Ex; cbn in H; [| discriminate H].
      destruct (float ex) as [a0 |] eqn:E0; cbn in H; [| discriminate H].
      destruct (lookup d Sym.y) as [ey |] eqn:Ey; cbn in H; [| discriminate H].
      destruct (float ey) as [b0 |] eqn:E1; cbn in H; [| discriminate H].
      injection H as <- <-. exists d, ex, ey. auto.
    + discriminate H.
  - intros [(e0 & e1 & more & rest & -> & E0 & E1)
           | (d & ex & ey & -> & Ex & Ey & E0 & E1)].
    + cbn. rewrite E0. cbn. rewrite E1. reflexivity.
    + cbn. rewrite Ex. cbn. rewrite E0. cbn. rewrite Ey. cbn. rewrite E1. reflexivity.
Qed.

(** What can go wrong while reading the constrained result: a list
    fails with [IndexError] (empty list, or first tuple shorter than
    two) or [TypeError] (an entry that is not a number); a dict fails
    with [KeyError] (no entry for [x] or [y]) or [TypeError]; any other
    object passes without an exception, leaving the names unbound. *)
Theorem extract_constrained_errors (v : pyvalue) (e : exn) :
  extract_constrained v = Raise e ->
  ((exists l, v = PyList l) /\ (e = IndexError \/ e = TypeError)) \/
  ((exists d, v = PyDict d) /\ (e = KeyError \/ e = TypeError)).
Proof.
  assert (Hfloat : forall (x : expr) (e' : exn), float x = Raise e' -> e' = TypeError).
  { intros x e'. unfold float. destruct (has_symbol x); intros H; [| discriminate H].
    injection H as <-. reflexivity. }
  destruct v as [l | d |]; cbn [extract_constrained]; intros H.
  - left. split; [eauto |].
    destruct l as [| [| e0 [| e1 more]] rest]; cbn in H.
    + injection H as <-. auto.
    + injection H as <-. auto.
    + destruct (float e0) eqn:E0; cbn in H.
      * injection H as <-. auto.
      * injection H as <-. right. exact (Hfloat _ _ E0).
    + destruct (float e0) eqn:E0; cbn in H.
      * destruct (float e1) eqn:E1; cbn in H; [discriminate H |].
        injection H as <-. right. exact (Hfloat _ _ E1).
      * injection H as <-. right. exact (Hfloat _ _ E0).
  - right. split; [eauto |]. unfold getitem_symbol in H.
    destruct (lookup d Sym.x) as [ex |]; cbn in H; [| injection H as <-; auto].
    destruct (float ex) eqn:E0; cbn in H;
      [| injection H as <-; right; exact (Hfloat _ _ E0)].
    destruct (lookup d Sym.y) as [ey |]; cbn in H; [| injection H as <-; auto].
    destruct (float ey) eqn:E1; cbn in H; [discriminate H |].
    injection H as <-. right. exact (Hfloat _ _ E1).
  - discriminate H.
Qed.

Lemma extract_constrained_errors_witness :
  extract_constrained (PyList []) = Raise IndexError /\
  (((exists l, PyList [] = PyList l) /\ (IndexError = IndexError \/ IndexError = TypeError)) \/
   ((exists d, PyList [] = PyDict d) /\ (IndexError = KeyError \/ IndexError = TypeError))).
Proof.
  split; [reflexivity |].
  exact (extract_constrained_errors (PyList []) IndexError eq_refl).
Defined.

(** The unconstrained coordinates are read only from a dict whose
    entries for [x] and [y] are numbers.  A list, even a non-empty one,
    is indexed by a symbol and fails with [TypeError]; a dict without
    [x] fails with [KeyError]. *)
Theorem extract_unconstrained_returns_iff (v : pyvalue) (a b : R) :
  (extract_unconstrained v = Ok (a, b) <->
   exists d ex ey,
     v = PyDict d /\ lookup d Sym.x = Some ex /\ lookup d Sym.y = Some ey /\
     float ex = Ok a /\ float ey = Ok b) /\
  (forall l, v = PyList l -> extract_unconstrained v = Raise TypeError) /\
  (forall d, v = PyDict d -> lookup d Sym.x = None ->
             extract_unconstrained v = Raise KeyError).
Proof.
  split; [| split].
  - split.
    + destruct v as [l | d |]; unfold extract_unconstrained; cbn [getitem_symbol bind];
        intros H; try discriminate H.
      destruct (lookup d Sym.x) as [ex |] eqn:Ex; cbn in H; [| discriminate H].
      destruct (float ex) as [a0 |] eqn:E0; cbn in H; [| discriminate H].
      destruct (lookup d Sym.y) as [ey |] eqn:Ey; cbn in H; [| discriminate H].
      destruct (float ey) as [b0 |] eqn:E1; cbn in H; [| discriminate H].
      injection H as <- <-. exists d, ex, ey. auto.
    + intros (d & ex & ey & -> & Ex & Ey & E0 & E1).
      unfold extract_unconstrained. cbn [getitem_symbol].
      rewrite Ex. cbn. rewrite E0. cbn. rewrite Ey. cbn. rewrite E1. reflexivity.
  - intros l ->. reflexivity.
  - intros d -> Ex. unfold extract_unconstrained. cbn [getitem_symbol].
    rewrite Ex. reflexivity.
Qed.

Lemma extract_unconstrained_returns_iff_witness :
  extract_unconstrained (PyDict [(Sym.x, Num 1); (Sym.y, Num 2)]) = Ok (1, 2) /\
  extract_unconstrained (PyList [[Num 1; Num 2]]) = Raise TypeError /\
  extract_unconstrained (PyDict [(Sym.y, Num 2)]) = Raise KeyError.
Proof.
  split; [| split].
  - apply (proj1 (extract_unconstrained_returns_iff
                    (PyDict [(Sym.x, Num 1); (Sym.y, Num 2)]) 1 2)).
    exists [(Sym.x, Num 1); (Sym.y, Num 2)], (Num 1), (Num 2).
    repeat split; reflexivity.
  - exact (proj1 (proj2 (extract_unconstrained_returns_iff
                           (PyList [[Num 1; Num 2]]) 0 0)) _ eq_refl).
  - exact (proj2 (proj2 (extract_unconstrained_returns_iff
                           (PyDict [(Sym.y, Num 2)]) 0 0)) _ eq_refl eq_refl).
Defined.

Lemma extract_constrained_binds_iff_witness :
  extract_constrained (PyList [[Num 1; Num 2; Num 3]]) = Ok (Some (1, 2)).
Proof.
  apply (proj2 (extract_constrained_binds_iff (PyList [[Num 1; Num 2; Num 3]]) 1 2)).
  left. exists (Num 1), (Num 2), [Num 3], []. repeat split; reflexivity.
Defined.

(** ** The script from end to end *)

(** The result of the script when none of its divisions is by zero. *)
Lemma script_result (origin_long origin_lat : R) (di ob ga ho res : R * R) :
  cos (origin_lat * PI / 180) <> 0 ->
  fst res <> fst ho ->
  let lx := fun p : R * R =>
    6371 * (fst p * PI / 180 - origin_long * PI / 180) * cos (origin_lat * PI / 180) in
  let ly := fun p : R * R =>
    6371 * (snd p * PI / 180 - origin_lat * PI / 180) in
  let pts := [WeightedPoint 1 (lx di) (ly di); WeightedPoint 2 (lx ob) (ly ob);
              WeightedPoint 3 (lx ga) (ly ga)] in
  let m := (ly res - ly ho) / (lx res - lx ho) in
  let b := ly ho - m * lx ho in
  let deg := fun v : R * R =>
    (origin_long + fst v / (6371 * cos (origin_lat * PI / 180)) * 180 / PI,
     origin_lat + snd v / 6371 * 180 / PI) in
  lx res <> lx ho /\
  script origin_long origin_lat di ob ga ho res =
  Ok (deg (weighted_centroid pts),
      deg (orthogonal_projection (weighted_centroid pts) m b)).
Proof.
  intros Hc Hx lx ly pts m b deg. assert (Hpi := PI_RGT_0).
  assert (Hl : lx res <> lx ho).
  { subst lx. cbv beta. intros E. apply Hx.
    assert (H : (fst res - fst ho) * (6371 * (PI / 180) * cos (origin_lat * PI / 180)) = 0)
      by lra.
    apply Rmult_integral in H. destruct H as [H | H]; [lra |].
    exfalso. apply Rmult_integral in H. destruct H as [H | H]; [lra | contradiction]. }
  split; [exact Hl |].
  unfold script. rewrite !deg_to_kms_eq. cbn [bind fst snd].
  rewrite constrained_sol_eq by exact Hl.
  cbn [bind]. rewrite !U_objective.
  unfold results_conversion.
  rewrite unconstrained_sol_objective by (rewrite total_weight_U; lra).
  rewrite lagrange_sol_objective by (rewrite total_weight_U; lra).
  cbv zeta. rewrite extract_unconstrained_dict, extract_constrained_dict.
  cbn [bind read_names fst snd].
  rewrite !kms_to_deg_eq by exact Hc. reflexivity.
Qed.

(** A street that runs due north-south stops the script: when the
    two street endpoints have the same longitude, line 129 divides by
    zero and the script ends with [ZeroDivisionError], whatever the
    origin and the amenities. *)
Theorem script_north_south_street_raises
    (origin_long origin_lat : R) (di ob ga ho res : R * R) :
  fst res = fst ho ->
  script origin_long origin_lat di ob ga ho res = Raise ZeroDivisionError.
Proof.
  intros Hx. unfold script. rewrite !deg_to_kms_eq. cbn [bind fst snd].
  rewrite constrained_sol_vertical; [reflexivity |].
  rewrite Hx. reflexivity.
Qed.

Lemma script_north_south_street_raises_witness :
  fst (-58.38, -34.59) = fst (-58.38, -34.60) /\
  script ORIGIN_LONG ORIGIN_LAT di_global ob_global ga_global
    (-58.38, -34.60) (-58.38, -34.59) = Raise ZeroDivisionError.
Proof.
  split; [reflexivity |].
  exact (script_north_south_street_raises ORIGIN_LONG ORIGIN_LAT
           di_global ob_global ga_global (-58.38, -34.60) (-58.38, -34.59)
           eq_refl).
Defined.

(** Back in degrees, the unconstrained optimum of the script is the
    average of the three amenities' longitudes and latitudes with
    weights 1, 2 and 3; it depends neither on the origin chosen for the
    local frame nor on the street. *)
Theorem script_unconstrained_is_weighted_mean_of_degrees
    (origin_long origin_lat : R) (di ob ga ho res : R * R) :
  cos (origin_lat * PI / 180) <> 0 ->
  fst res <> fst ho ->
  exists cons : R * R,
    script origin_long origin_lat di ob ga ho res =
    Ok (((fst di + 2 * fst ob + 3 * fst ga) / 6,
         (snd di + 2 * snd ob + 3 * snd ga) / 6),
        cons).
Proof.
  intros Hc Hx. assert (Hpi := PI_neq0).
  destruct (script_result origin_long origin_lat di ob ga ho res Hc Hx) as [_ E].
  cbv zeta in E. rewrite E. eexists. f_equal. f_equal.
  unfold weighted_centroid.
  cbn [fst snd total_weight weighted_sum_x weighted_sum_y fold_right weight px py].
  f_equal; field; auto.
Qed.

Lemma script_unconstrained_is_weighted_mean_of_degrees_witness :
  cos (ORIGIN_LAT * PI / 180) <> 0 /\
  fst res_global <> fst ho_global /\
  exists cons : R * R,
    main =
    Ok (((fst di_global + 2 * fst ob_global + 3 * fst ga_global) / 6,
         (snd di_global + 2 * snd ob_global + 3 * snd ga_global) / 6),
        cons).
Proof.
  assert (Hx : fst res_global <> fst ho_global)
    by (unfold res_global, ho_global; cbn [fst]; lra).
  split; [exact cos_ORIGIN_LAT |]. split; [exact Hx |].
  exact (script_unconstrained_is_weighted_mean_of_degrees
           ORIGIN_LONG ORIGIN_LAT di_global ob_global ga_global ho_global res_global
           cos_ORIGIN_LAT Hx).
Defined.

(** Back in degrees, the constrained optimum of the script lies on the
    straight line through the two street endpoints as they are given,
    in degrees. *)
Theorem script_constrained_on_street
    (origin_long origin_lat : R) (di ob ga ho res : R * R) :
  cos (origin_lat * PI / 180) <> 0 ->
  fst res <> fst ho ->
  exists unc cons : R * R,
    script origin_long origin_lat di ob ga ho res = Ok (unc, cons) /\
    (snd cons - snd ho) * (fst res - fst ho) =
    (snd res - snd ho) * (fst cons - fst ho).
Proof.
  intros Hc Hx. assert (Hpi := PI_neq0).
  destruct (script_result origin_long origin_lat di ob ga ho res Hc Hx) as [Hl E].
  cbv zeta in E, Hl. rewrite E. eexists. eexists. split; [reflexivity |].
  set (c := weighted_centroid _).
  set (hx := 6371 * (fst ho * PI / 180 - origin_long * PI / 180)
             * cos (origin_lat * PI / 180)) in *.
  set (hy := 6371 * (snd ho * PI / 180 - origin_lat * PI / 180)) in *.
  set (rx := 6371 * (fst res * PI / 180 - origin_long * PI / 180)
             * cos (origin_lat * PI / 180)) in *.
  set (ry := 6371 * (snd res * PI / 180 - origin_lat * PI / 180)) in *.
  set (m := (ry - hy) / (rx - hx)).
  set (q := orthogonal_projection c m (hy - m * hx)).
  assert (Hq : (snd q - hy) * (rx - hx) = (ry - hy) * (fst q - hx)).
  { pose proof (orthogonal_projection_on_line c m (hy - m * hx)) as Hline.
    fold q in Hline. rewrite Hline. subst m. field. lra. }
  cbn [fst snd].
  set (A := 6371 * cos (origin_lat * PI / 180)).
  assert (HA : A <> 0)
    by (apply Rmult_integral_contrapositive_currified; [lra | exact Hc]).
  assert (Ehx : fst ho = origin_long + hx / A * 180 / PI)
    by (subst hx A; field; auto).
  assert (Erx : fst res = origin_long + rx / A * 180 / PI)
    by (subst rx A; field; auto).
  assert (Ehy : snd ho = origin_lat + hy / 6371 * 180 / PI)
    by (subst hy; field; auto).
  assert (Ery : snd res = origin_lat + ry / 6371 * 180 / PI)
    by (subst ry; field; auto).
  rewrite Ehx, Erx, Ehy, Ery.
  transitivity ((snd q - hy) * (rx - hx) * (180 / PI / 6371 * (180 / PI / A))).
  - field. auto.
  - rewrite Hq. field. auto.
Qed.

Lemma script_constrained_on_street_witness :
  cos (ORIGIN_LAT * PI / 180) <> 0 /\
  fst res_global <> fst ho_global /\
  exists unc cons : R * R,
    main = Ok (unc, cons) /\
    (snd cons - snd ho_global) * (fst res_global - fst ho_global) =
    (snd res_global - snd ho_global) * (fst cons - fst ho_global).
Proof.
  assert (Hx : fst res_global <> fst ho_global)
    by (unfold res_global, ho_global; cbn [fst]; lra).
  split; [exact cos_ORIGIN_LAT |]. split; [exact Hx |].
  exact (script_constrained_on_street
           ORIGIN_LONG ORIGIN_LAT di_global ob_global ga_global ho_global res_global
           cos_ORIGIN_LAT Hx).
Defined.

(** ** Order of the reference points *)

Lemma sums_permutation (pts pts' : list weighted_point) :
  Permutation pts pts' ->
  total_weight pts = total_weight pts' /\
  weighted_sum_x pts = weighted_sum_x pts' /\
  weighted_sum_y pts = weighted_sum_y pts'.
Proof.
  induction 1 as [| p l l' _ (IHw & IHx & IHy)
                  | p p' l
                  | l l' l'' _ (IHw & IHx & IHy) _ (IHw' & IHx' & IHy')].
  - repeat split; reflexivity.
  - destruct (sums_cons p l) as (Hw & Hx & Hy).
    destruct (sums_cons p l') as (Hw' & Hx' & Hy').
    rewrite Hw, Hx, Hy, Hw', Hx', Hy', IHw, IHx, IHy. repeat split; reflexivity.
  - destruct (sums_cons p' (p :: l)) as (Hw & Hx & Hy).
    destruct (sums_cons p (p' :: l)) as (Hw' & Hx' & Hy').
    destruct (sums_cons p l) as (Hw1 & Hx1 & Hy1).
    destruct (sums_cons p' l) as (Hw2 & Hx2 & Hy2).
    rewrite Hw, Hx, Hy, Hw', Hx', Hy', Hw1, Hx1, Hy1, Hw2, Hx2, Hy2.
    repeat split; ring.
  - repeat split; congruence.
Qed.

(** The order in which the reference points enter the objective does
    not matter: listing the same weighted points in another order gives
    the same unconstrained and the same constrained result. *)
Theorem solves_invariant_under_permutation
    (pts pts' : list weighted_point) (m b : R) :
  Permutation pts pts' ->
  total_weight pts <> 0 ->
  unconstrained_sol (objective pts') = unconstrained_sol (objective pts) /\
  lagrange_sol (objective pts') m b = lagrange_sol (objective pts) m b.
Proof.
  intros Hp Hw. destruct (sums_permutation pts pts' Hp) as (Ew & Ex & Ey).
  assert (Hw' : total_weight pts' <> 0) by (rewrite <- Ew; exact Hw).
  assert (Ec : weighted_centroid pts' = weighted_centroid pts)
    by (unfold weighted_centroid; rewrite Ew, Ex, Ey; reflexivity).
  split.
  - rewrite !unconstrained_sol_objective by assumption. rewrite Ec. reflexivity.
  - pose proof (lagrange_sol_objective pts' m b Hw') as H1.
    pose proof (lagrange_sol_objective pts m b Hw) as H2.
    cbv zeta in H1, H2. rewrite H1, H2, Ec, Ew, Ex, Ey. reflexivity.
Qed.

Lemma solves_invariant_under_permutation_witness :
  Permutation [WeightedPoint 1 0 0; WeightedPoint 2 10 0]
              [WeightedPoint 2 10 0; WeightedPoint 1 0 0] /\
  total_weight [WeightedPoint 1 0 0; WeightedPoint 2 10 0] <> 0 /\
  unconstrained_sol (objective [WeightedPoint 2 10 0; WeightedPoint 1 0 0]) =
  unconstrained_sol (objective [WeightedPoint 1 0 0; WeightedPoint 2 10 0]).
Proof.
  assert (Hp : Permutation [WeightedPoint 1 0 0; WeightedPoint 2 10 0]
                           [WeightedPoint 2 10 0; WeightedPoint 1 0 0])
    by apply perm_swap.
  assert (Hw : total_weight [WeightedPoint 1 0 0; WeightedPoint 2 10 0] <> 0)
    by (cbn; lra).
  split; [exact Hp |]. split; [exact Hw |].
  exact (proj1 (solves_invariant_under_permutation _ _ 0 0 Hp Hw)).
Defined.
